(** * gulp-watch: the glob-to-event correlation engine of [index.js]

    A shallow embedding of [index.js] and the properties its specification
    states about it.  The file follows the source top to bottom:
    JavaScript values and exceptions, [normalizeGlobs], the body of [watch]
    ([resolveFilepath], [resolveGlob], the stream's [_write], [add],
    [unwatch], [close], [processEvent], [write], [log]) and the default
    options.

    The libraries [index.js] requires (path, path-is-absolute,
    normalize-path, glob-parent, anymatch, chokidar, vinyl, vinyl-file,
    fancy-log) are collaborators of the engine: the pure ones are the
    operations of the class [Host], of which [posix] is an instance the
    engine can be run on; the effectful ones are recorded in the [trace] of
    the state.

    Three locals of [index.js] are declared [const] and assigned to
    afterwards, and one of them has no initialiser.  The functions that hold
    them take the kind of these declarations as their first argument
    ([binding]): at [ConstBinding] they are the text as committed, read
    function by function, where such an assignment throws; what loading
    the module as a whole does is [require_module]. *)

From Stdlib Require Import ZArith Lia Ascii.
From stdpp Require Import base option list strings gmap.

(** ** JavaScript values

    The values the engine inspects: the [globs] argument, the option values
    and the callback.  Arrays are arrays of strings (pattern lists and the
    [events] option); numbers are the integers and [NaN], which is all that
    truthiness and [typeof] tell apart.  [JIter l] is an object that is not
    an array and has a [forEach] method that visits the strings [l] in turn
    (a [Set], say); [JObj] is an object without such a method. *)
Inductive jsval :=
| JUndefined
| JNull
| JBool (b : bool)
| JNum (n : Z)
| JNaN
| JStr (s : string)
| JArr (l : list string)
| JIter (l : list string)
| JObj
| JFun (f : nat).

(** [!v] is [negb (truthy v)]. *)
Definition truthy (v : jsval) : bool :=
  match v with
  | JUndefined | JNull | JNaN => false
  | JBool b => b
  | JNum n => negb (n =? 0)%Z
  | JStr s => negb (String.eqb s "")
  | JArr _ | JIter _ | JObj | JFun _ => true
  end.

Definition typeof (v : jsval) : string :=
  match v with
  | JUndefined => "undefined"
  | JNull | JArr _ | JIter _ | JObj => "object"
  | JBool _ => "boolean"
  | JNum _ | JNaN => "number"
  | JStr _ => "string"
  | JFun _ => "function"
  end.

(** Property access [o.k] on an option object: an absent key reads as
    [undefined]. *)
Definition prop (o : gmap string jsval) (k : string) : jsval :=
  default JUndefined (o !! k).

(** object-assign's [assign(target, ...sources)]: the own properties of each
    source are copied onto the target in turn, so a later source wins. *)
Definition assign (target : gmap string jsval)
  (sources : list (gmap string jsval)) : gmap string jsval :=
  foldl (fun acc source => source ∪ acc) target sources.

(** [arr[i]] for the number [i] a library returned: [undefined] outside the
    array, in particular at [-1]. *)
Definition array_get (arr : list string) (i : Z) : option string :=
  if (i <? 0)%Z then None else arr !! Z.to_nat i.

(** Truthiness of [arr[i]]: [undefined] and the empty string are falsy. *)
Definition truthy_elt (v : option string) : bool :=
  match v with
  | None => false
  | Some s => negb (String.eqb s "")
  end.

(** ** Exceptions and results

    [Uncaught err] is what [emit('error', err)] throws on an emitter nobody
    listens to for [error]: the error itself. *)
Inductive exn :=
| PluginError (plugin message : string)
| TypeError (message : string)
| SyntaxError (message : string)
| Uncaught (err : string).

(** The outcome of running a piece of the engine: a value, a thrown
    exception, or [Diverge] when the loop of [processEvent] has used up its
    iteration budget. *)
Inductive result (A : Type) :=
| Ok (a : A)
| Throw (e : exn)
| Diverge.
Arguments Ok {A} a.
Arguments Throw {A} e.
Arguments Diverge {A}.

#[global] Instance result_ret : MRet result := fun A a => Ok a.
#[global] Instance result_bind : MBind result := fun A B f m =>
  match m with
  | Ok a => f a
  | Throw e => Throw e
  | Diverge => Diverge
  end.

(** [mapM] over an array, left to right, as [Array.prototype.map] calls its
    function: the first exception ends the traversal. *)
Fixpoint map_result {A B} (f : A -> result B) (l : list A) : result (list B) :=
  match l with
  | [] => Ok []
  | a :: l' => b ← f a; bs ← map_result f l'; Ok (b :: bs)
  end.

(** ** Declarations and assignment

    [index.js] declares every local with [const], among them three that it
    assigns to afterwards: [mod] (line 52, assigned on line 55), [glob]
    (line 101, assigned on line 103) and [currentFilepath] (line 102,
    assigned on line 103).  ECMAScript makes an assignment to a [const]
    binding throw a [TypeError].  The embedding carries the kind of these
    three declarations as a parameter, so that each function is written once,
    line by line; the functions as committed are the instances at
    [ConstBinding].  The instances at [LetBinding] are the same text with the
    three declarations mutable, as the assignments presuppose.

    Line 101, [const glob;], has no initialiser, which ECMAScript rejects when
    the module is parsed: as committed, the module is never loaded
    ([require_module]) and none of its functions is ever called.  The
    functions are embedded one by one all the same; for the body of
    [processEvent] to have an evaluation to follow, line 101 is read there
    as the declaration of an immutable binding that holds [undefined].
    What an instance at [ConstBinding] does is therefore the most the
    committed text can do; the module itself does less. *)
Inductive binding := ConstBinding | LetBinding.

Definition const_assignment : exn := TypeError "Assignment to constant variable.".

(** [x = v] for a local [x] declared with kind [b]; the value of the
    expression is [v]. *)
Definition assign_local {A} (b : binding) (v : A) : result A :=
  match b with
  | ConstBinding => Throw const_assignment
  | LetBinding => Ok v
  end.

(** Loading the module: a [const] declaration without initialiser is an
    early error, raised when the text is parsed and before any statement of
    it runs, so [require] throws and [module.exports] (line 176) is never
    assigned.  With the declarations mutable the text is valid and [require]
    returns what the module exports. *)
Definition missing_initializer : exn :=
  SyntaxError "Missing initializer in const declaration".

Definition require_module {A} (b : binding) (exports : A) : result A :=
  match b with
  | ConstBinding => Throw missing_initializer
  | LetBinding => Ok exports
  end.

(** Line 76 calls [opts.events.forEach]: reading the property of [undefined]
    or [null] throws, and so does calling a method that is not there.  The
    messages are the engine's. *)
Definition events_without_forEach (events : jsval) : exn :=
  match events with
  | JUndefined => TypeError "Cannot read properties of undefined (reading 'forEach')"
  | JNull => TypeError "Cannot read properties of null (reading 'forEach')"
  | _ => TypeError "opts.events.forEach is not a function"
  end.

(** ** [normalizeGlobs] (lines 16-30) *)
Definition glob_required : exn :=
  PluginError "gulp-watch" "glob argument required".

Definition glob_wrong_type (ty : string) : exn :=
  PluginError "gulp-watch" ("glob should be String or Array, not " +:+ ty).

Definition normalizeGlobs (globs : jsval) : result (list string) :=
  if negb (truthy globs) then Throw glob_required
  else match globs with
       | JStr s => Ok [s]
       | JArr l => Ok l
       | _ => Throw (glob_wrong_type (typeof globs))
       end.

(** ** The collaborators

    The pure functions of the required libraries, as the engine calls them.
    [anymatch globs p] is [anymatch(globs, p, true)]: the index of the first
    matching pattern, [-1] when there is none. *)
Class Host := {
  process_cwd : string;
  pathIsAbsolute : string -> bool;
  path_normalize : string -> string;
  path_resolve : string -> string -> string;
  path_dirname : string -> string;
  normalize_path : string -> string;
  globParent : string -> string;
  anymatch : list string -> string -> Z
}.

(** ** Files, effects and the state of one watch session *)

(** A vinyl file: the option object it was built from ([cwd], [base],
    [path], ...), the payload a read fills in, and the [event] tag that
    [write] sets. *)
Record File := {
  f_opts : gmap string jsval;
  f_contents : option string;
  f_stat : option Z;
  f_event : option string
}.

(** [new File(fileOpts)]: path metadata only. *)
Definition new_File (fileOpts : gmap string jsval) : File :=
  {| f_opts := fileOpts; f_contents := None; f_stat := None; f_event := None |}.

(** [file.event = event]. *)
Definition tag (event : string) (f : File) : File :=
  {| f_opts := f_opts f; f_contents := f_contents f; f_stat := f_stat f;
     f_event := Some event |}.

(** A read that [processEvent] has scheduled: the closure of lines 129-133. *)
Record pending := {
  p_event : string;
  p_filepath : string;
  p_fileOpts : gmap string jsval
}.

(** What the "Watched unexpected path" message of lines 106-112 interpolates
    (the interpreter and package versions apart). *)
Record report := {
  r_globs : jsval;
  r_filepath : string;
  r_event : string;
  r_cwd : string;
  r_opts : gmap string jsval
}.

Inductive log_entry :=
| Unexpected (r : report)
| Saw (name : jsval) (f : File) (verb : string).

(** The calls the engine makes on its collaborators, in order, and the
    listeners the application attaches to the stream ([EListen], for
    [stream.on(name, ...)]). *)
Inductive effect :=
| EWatch (paths : list string)
| EWatcherAdd (paths : list string)
| EWatcherUnwatch (paths : jsval)
| EWatcherClose
| ESetTimeout (delay : jsval) (p : pending)
| ERead (p : pending)
| EUnhandledRejection (err : string)
| EPush (f : File)
| ECall (cb : nat) (f : File)
| EEmit (name : string) (arg : option string)
| ELog (l : log_entry)
| EListen (name : string).

(** The mutable part of a session: the [globs] array that [add] extends and
    [processEvent] reads, the timers set and not yet fired, the reads started
    and not yet settled, and the effects so far. *)
Record state := {
  globs : list string;
  timers : list pending;
  reads : list pending;
  trace : list effect
}.

(** The per-file callback: the caller's function, or [function () {}]
    (line 42). *)
Inductive callback := UserCallback (f : nat) | NoopCallback.

(** What [watch] fixes once: the merged options, the callback, the [globs]
    argument as passed ([originalGlobs], line 33) and [baseForced]
    (line 63). *)
Record config := {
  opts : gmap string jsval;
  cb : callback;
  originalGlobs : jsval;
  baseForced : bool
}.

Definition record (st : state) (es : list effect) : state :=
  {| globs := globs st; timers := timers st; reads := reads st;
     trace := trace st ++ es |}.

Definition call (c : callback) (f : File) : list effect :=
  match c with
  | UserCallback k => [ECall k f]
  | NoopCallback => []
  end.

(** [watch._defaultOptions] (lines 170-174). *)
Definition watch_defaultOptions : gmap string jsval :=
  <["events" := JArr ["add"; "change"; "unlink"]]>
  (<["ignoreInitial" := JBool true]>
  (<["readDelay" := JNum 10]> ∅)).

(** The [opts] and [cb] arguments of [watch]. *)
Inductive opts_arg :=
| OptsUndefined
| OptsObject (o : gmap string jsval)
| OptsFunction (f : nat).

(** Lines 36-42: a function in the place of [opts] is the callback. *)
Definition watch_args (o : opts_arg) (c : option nat)
  : gmap string jsval * callback :=
  let '(c, o) :=
    match o with
    | OptsFunction f => (Some f, OptsObject ∅)
    | _ => (c, o)
    end in
  (match o with
   | OptsObject m => assign ∅ [watch_defaultOptions; m]
   | _ => assign ∅ [watch_defaultOptions]
   end,
   match c with
   | Some f => UserCallback f
   | None => NoopCallback
   end).

(** The events the stream mirrors from the watcher (line 80). *)
Definition mirrored : list string :=
  ["add"; "change"; "unlink"; "addDir"; "unlinkDir"; "error"; "ready"; "raw"].

(** What [opts.events.forEach] visits (line 76), when the option has a
    [forEach] to call. *)
Definition forEach_of (v : jsval) : option (list string) :=
  match v with
  | JArr l | JIter l => Some l
  | _ => None
  end.

Definition opt_events (o : gmap string jsval) : list string :=
  default [] (forEach_of (prop o "events")).

(** Whether somebody listens to the stream for [name]. *)
Definition heard (t : list effect) (name : string) : bool :=
  existsb (fun e => match e with
                    | EListen n => String.eqb n name
                    | _ => false
                    end) t.

(** [glob[0] === '!'] and [glob.slice(1)]. *)
Definition negated (glob : string) : bool :=
  match glob with
  | String c _ => Ascii.eqb c "!"%char
  | EmptyString => false
  end.

Definition slice1 (glob : string) : string :=
  match glob with
  | String _ rest => rest
  | EmptyString => EmptyString
  end.

(** The last character test of [log] (line 152). *)
Fixpoint ends_with_e (s : string) : bool :=
  match s with
  | EmptyString => false
  | String c EmptyString => Ascii.eqb c "e"%char
  | String _ rest => ends_with_e rest
  end.

(** The result of a scheduled read, as vinyl-file settles its promise. *)
Inductive outcome :=
| Fulfilled (f : File)
| Rejected (err : string).

(** ** The body of [watch] *)
Section Engine.
Context `{Host}.

(** [opts.cwd || process.cwd()]; the [cwd] option is a string when given. *)
Definition cwd_of (o : gmap string jsval) : string :=
  match prop o "cwd" with
  | JStr s => if String.eqb s "" then process_cwd else s
  | _ => process_cwd
  end.

(** [resolveFilepath] (lines 44-49). *)
Definition resolveFilepath (o : gmap string jsval) (filepath : string) : string :=
  if pathIsAbsolute filepath then path_normalize filepath
  else path_resolve (cwd_of o) filepath.

(** [resolveGlob] (lines 51-60); [b] is the kind of the declaration of [mod]
    on line 52 ([mod'] here, [mod] being a keyword). *)
Definition resolveGlob (b : binding) (o : gmap string jsval) (glob : string)
  : result string :=
  let mod' := "" in
  if negated glob then
    mod' ← assign_local b "!";
    let glob := slice1 glob in
    Ok (mod' +:+ normalize_path (resolveFilepath o glob))
  else
    Ok (mod' +:+ normalize_path (resolveFilepath o glob)).

(** [log] (lines 151-161). *)
Definition log (cfg : config) (st : state) (event : string) (file : File) : state :=
  let event := if ends_with_e event then event +:+ "d" else event +:+ "ed" in
  record st [ELog (Saw (prop (opts cfg) "name") file event)].

(** [write] (lines 136-149).  Its two calls (lines 124 and 131) pass [null]
    for [err]; the first branch is the text of lines 137-140, for a stream
    somebody listens to for [error]. *)
Definition write (cfg : config) (st : state) (event : string)
  (err : option string) (file : File) : state :=
  match err with
  | Some e => record st [EEmit "error" (Some e)]
  | None =>
      let st := if truthy (prop (opts cfg) "verbose") then log cfg st event file
                else st in
      let file := tag event file in
      record st (EPush file :: call (cb cfg) file)
  end.

(** The stream's [_write] (lines 66-70): a file the application writes into
    the stream. *)
Definition _write (cfg : config) (st : state) (file : File) : state :=
  record st (call (cb cfg) file ++ [EPush file]).

(** The message of lines 106-112. *)
Definition unexpected (cfg : config) (filepath event : string) : report :=
  {| r_globs := originalGlobs cfg; r_filepath := filepath; r_event := event;
     r_cwd := process_cwd; r_opts := opts cfg |}.

(** The loop of line 103,

      while (!(glob = globs[anymatch(globs, currentFilepath, true)])
             && currentFilepath !== (currentFilepath = path.dirname(currentFilepath))) {}

    with [b] the kind of the declarations of [glob] and [currentFilepath]
    (lines 101-102).  The result is the value [glob] holds when the loop
    ends.  [fuel] bounds the number of iterations. *)
Fixpoint owner_loop (b : binding) (fuel : nat) (gs : list string)
  (currentFilepath : string) : result (option string) :=
  match fuel with
  | O => Diverge
  | S fuel =>
      glob ← assign_local b (array_get gs (anymatch gs currentFilepath));
      if truthy_elt glob then Ok glob
      else
        parent ← assign_local b (path_dirname currentFilepath);
        if String.eqb currentFilepath parent then Ok glob
        else owner_loop b fuel gs parent
  end.

Definition unlink_event (event : string) : bool :=
  String.eqb event "unlink" || String.eqb event "unlinkDir".

(** [processEvent] (lines 97-134).  A path has at most as many proper
    ancestors as it has characters, which is the iteration budget of the
    loop. *)
Definition processEvent (b : binding) (cfg : config) (st : state)
  (event filepath : string) : result state :=
  let filepath := resolveFilepath (opts cfg) filepath in
  let fileOpts := assign ∅ [opts cfg] in
  glob ← owner_loop b (S (String.length filepath)) (globs st) filepath;
  if negb (truthy_elt glob) then
    Ok (record st [ELog (Unexpected (unexpected cfg filepath event))])
  else
    let fileOpts :=
      if baseForced cfg then fileOpts
      else <["base" := JStr (path_normalize (globParent (default "" glob)))]> fileOpts in
    if unlink_event event then
      let fileOpts := <["path" := JStr filepath]> fileOpts in
      Ok (write cfg st event None (new_File fileOpts))
    else
      let p := {| p_event := event; p_filepath := filepath;
                  p_fileOpts := fileOpts |} in
      Ok {| globs := globs st; timers := timers st ++ [p]; reads := reads st;
            trace := trace st ++ [ESetTimeout (prop (opts cfg) "readDelay") p] |}.

(** The timer of line 129 fires: [vinyl.read(filepath, fileOpts)] is called
    (line 130). *)
Definition timeout (st : state) (i : nat) : option state :=
  p ← timers st !! i;
  Some {| globs := globs st; timers := delete i (timers st);
          reads := reads st ++ [p]; trace := trace st ++ [ERead p] |}.

(** The promise of line 130 settles.  [then] is given a fulfilment handler
    only (lines 130-132): a rejection reaches no handler of the engine. *)
Definition settle (cfg : config) (st : state) (i : nat) (o : outcome)
  : option state :=
  p ← reads st !! i;
  let st := {| globs := globs st; timers := timers st;
               reads := delete i (reads st); trace := trace st |} in
  Some match o with
       | Fulfilled file => write cfg st (p_event p) None file
       | Rejected e => record st [EUnhandledRejection e]
       end.

(** The stream's [add] (lines 85-90). *)
Definition add (b : binding) (cfg : config) (st : state) (newGlobs : jsval)
  : result state :=
  l ← normalizeGlobs newGlobs;
  newGlobs ← map_result (resolveGlob b (opts cfg)) l;
  Ok {| globs := globs st ++ newGlobs; timers := timers st; reads := reads st;
        trace := trace st ++ [EWatcherAdd newGlobs] |}.

(** The stream's [unwatch] (line 91) and [close] (lines 92-95). *)
Definition unwatch (st : state) (paths : jsval) : state :=
  record st [EWatcherUnwatch paths].

Definition close (st : state) : state :=
  record st [EWatcherClose; EEmit "end" None].

(** The watcher emits [event] with [arg]: the listeners of lines 76-83 run
    in the order they were registered, [processEvent] once for each
    occurrence of [event] in [opts.events], then the mirror of line 82,
    [outputStream.emit(event, arg)].  An emitter throws the argument of an
    [error] event that nobody listens to. *)
Fixpoint run_listeners (b : binding) (cfg : config) (st : state)
  (event arg : string) (evs : list string) : result state :=
  match evs with
  | [] => Ok st
  | ev :: evs =>
      if String.eqb ev event then
        st ← processEvent b cfg st event arg;
        run_listeners b cfg st event arg evs
      else run_listeners b cfg st event arg evs
  end.

Definition watcher_emit (b : binding) (cfg : config) (st : state)
  (event arg : string) : result state :=
  st ← run_listeners b cfg st event arg (opt_events (opts cfg));
  if bool_decide (event ∈ mirrored) then
    if String.eqb event "error" && negb (heard (trace st) "error")
    then Throw (Uncaught arg)
    else Ok (record st [EEmit event (Some arg)])
  else Ok st.

(** [watch] (lines 32-164): the configuration and the initial state of the
    session, or the exception thrown while setting it up.  Line 76 calls
    [opts.events.forEach], which throws unless the option has that
    method. *)
Definition watch (b : binding) (globs : jsval) (o : opts_arg) (c : option nat)
  : result (config * state) :=
  let originalGlobs := globs in
  globs ← normalizeGlobs globs;
  let '(o, c) := watch_args o c in
  globs ← map_result (resolveGlob b o) globs;
  match forEach_of (prop o "events") with
  | Some _ =>
      Ok ({| opts := o; cb := c; originalGlobs := originalGlobs;
             baseForced := truthy (prop o "base") |},
          {| globs := globs; timers := []; reads := [];
             trace := [EWatch globs] |})
  | None => Throw (events_without_forEach (prop o "events"))
  end.

(** [require('gulp-watch')(globs, opts, cb)]: what a program that loads the
    module and calls its export gets. *)
Definition required_watch (b : binding) (globs : jsval) (o : opts_arg)
  (c : option nat) : result (config * state) :=
  watch ← require_module b (watch b);
  watch globs o c.

End Engine.

(** ** A POSIX host

    An instance of [Host] on which the engine can be run: Node's POSIX
    [path.dirname], [path.normalize] and [path.resolve], normalize-path,
    glob-parent, and anymatch.  The process works in [/proj].

    The patterns of this instance are written with literal characters, [?],
    [*] and [**]; a wildcard does not match the dot a file or directory name
    begins with.  Brace, bracket and parenthesis syntax is recognised by
    [posix_globParent], as glob-parent recognises it, and is not expanded
    by the matcher of [posix_anymatch]: patterns that use it are outside
    what this instance says about anymatch.  The patterns the engine hands
    to either have been through normalize-path and hold no backslash. *)
Definition chars (s : string) : list ascii := String.list_ascii_of_string s.
Definition str (l : list ascii) : string := String.string_of_list_ascii l.

Definition is_slash (c : ascii) : bool := Ascii.eqb c "/"%char.

Fixpoint drop_while {A} (f : A -> bool) (l : list A) : list A :=
  match l with
  | [] => []
  | a :: l' => if f a then drop_while f l' else l
  end.

Definition posix_isAbsolute (p : string) : bool :=
  match p with
  | String c _ => is_slash c
  | EmptyString => false
  end.

(** [path.dirname]: drop the trailing slashes and the last segment, then the
    slash before it; the slash at index 0 is never dropped. *)
Definition posix_dirname (p : string) : string :=
  match drop_while (fun c => negb (is_slash c))
          (drop_while is_slash (rev (chars p))) with
  | [] => if posix_isAbsolute p then "/" else "."
  | _ :: r =>
      match r with
      | [] => "/"
      | [c] => if is_slash c then "//" else str [c]
      | _ => str (rev r)
      end
  end.

(** The segments of a path, between slashes. *)
Fixpoint segments_from (cur : list ascii) (l : list ascii) : list (list ascii) :=
  match l with
  | [] => [rev cur]
  | c :: l' =>
      if is_slash c then rev cur :: segments_from [] l'
      else segments_from (c :: cur) l'
  end.

(** One segment pushed on the stack of segments kept so far (the top is the
    last one): empty and [.] segments vanish, [..] pops. *)
Definition push_segment (absolute : bool) (stack : list (list ascii))
  (seg : list ascii) : list (list ascii) :=
  if bool_decide (seg = []) || bool_decide (seg = chars ".") then stack
  else if bool_decide (seg = chars "..") then
    match stack with
    | top :: rest => if bool_decide (top = chars "..") then seg :: stack else rest
    | [] => if absolute then [] else [seg]
    end
  else seg :: stack.

Fixpoint join_slash (segs : list (list ascii)) : list ascii :=
  match segs with
  | [] => []
  | [s] => s
  | s :: segs' => s ++ "/"%char :: join_slash segs'
  end.

Definition ends_with_slash (l : list ascii) : bool :=
  match rev l with
  | c :: _ => is_slash c
  | [] => false
  end.

Definition normalize_chars (keep_trailing : bool) (l : list ascii) : list ascii :=
  let absolute := match l with c :: _ => is_slash c | [] => false end in
  let body := join_slash (rev (foldl (push_segment absolute) [] (segments_from [] l))) in
  let body := match body with
              | [] => if absolute then [] else chars "."
              | _ => if keep_trailing && ends_with_slash l then body ++ chars "/"
                     else body
              end in
  if absolute then "/"%char :: body else body.

Definition posix_normalize (p : string) : string :=
  match p with
  | EmptyString => "."
  | _ => str (normalize_chars true (chars p))
  end.

(** [path.resolve(from, to)] in a process whose working directory is
    [cwd]. *)
Definition posix_resolve (cwd from to : string) : string :=
  let joined :=
    if posix_isAbsolute to then to
    else if posix_isAbsolute from then from +:+ "/" +:+ to
    else cwd +:+ "/" +:+ from +:+ "/" +:+ to in
  str (normalize_chars false (chars joined)).

(** normalize-path: every run of slashes and backslashes becomes one slash,
    and a trailing slash goes unless it is the whole path. *)
Definition is_sep (c : ascii) : bool := is_slash c || Ascii.eqb c "\"%char.

Fixpoint squeeze (after_sep : bool) (l : list ascii) : list ascii :=
  match l with
  | [] => []
  | c :: l' =>
      if is_sep c then
        if after_sep then squeeze true l' else "/"%char :: squeeze true l'
      else c :: squeeze false l'
  end.

Definition strip_trailing (l : list ascii) : list ascii :=
  match rev l with
  | c :: (_ :: _) as r => if is_slash c then rev r else l
  | _ => l
  end.

Definition posix_normalize_path (p : string) : string :=
  str (strip_trailing (squeeze false (chars p))).

(** is-glob, and the test glob-parent adds to it, on a pattern without
    backslashes: a [*] or a [?]; an opening bracket or brace; a [!] in
    front; a parenthesis that is not closed, or holds a [|], or follows one
    of [@ ! +] and is closed. *)
Definition has_char (c : ascii) (l : list ascii) : bool :=
  existsb (Ascii.eqb c) l.

Definition pipe_then_close (r : list ascii) : bool :=
  match drop_while (fun c => negb (Ascii.eqb c "|"%char)) r with
  | _ :: r' => has_char ")"%char r'
  | [] => false
  end.

Fixpoint paren_glob (prev : option ascii) (l : list ascii) : bool :=
  match l with
  | [] => false
  | c :: r =>
      Ascii.eqb c "("%char
      && (negb (has_char ")"%char r) && negb (bool_decide (r = []))
          || pipe_then_close r
          || match prev with
             | Some x => has_char x (chars "@!+") && has_char ")"%char r
             | None => false
             end)
      || paren_glob (Some c) r
  end.

Definition globby (l : list ascii) : bool :=
  has_char "*"%char l || has_char "?"%char l
  || has_char "["%char l || has_char "{"%char l
  || match l with c :: _ => Ascii.eqb c "!"%char | [] => false end
  || paren_glob None l.

(** A pattern that ends in a closing brace or bracket opened before. *)
Definition ends_in_enclosure (l : list ascii) : bool :=
  match rev l with
  | c :: r =>
      (Ascii.eqb c "}"%char || Ascii.eqb c "]"%char)
      && (has_char "{"%char r || has_char "["%char r)
  | [] => false
  end.

(** glob-parent: a slash is appended to a pattern that ends in an
    enclosure, then a character; [path.dirname] is taken once, and again as
    long as the result is globby. *)
Fixpoint strip_globby (fuel : nat) (p : string) : string :=
  match fuel with
  | O => p
  | S fuel =>
      let p := posix_dirname p in
      if globby (chars p) then strip_globby fuel p else p
  end.

Definition posix_globParent (glob : string) : string :=
  let glob := if ends_in_enclosure (chars glob) then glob +:+ "/" else glob in
  strip_globby (S (String.length glob)) (glob +:+ "a").

(** The matcher.  [start] tells whether the pattern is at the start of a
    path segment, where a wildcard needs a character to look at and does not
    take a dot. *)
Definition is_star (c : ascii) : bool := Ascii.eqb c "*"%char.
Definition is_dot (c : ascii) : bool := Ascii.eqb c "."%char.

Definition undotted (start : bool) (s : list ascii) : bool :=
  negb start || match s with c :: _ => negb (is_dot c) | [] => false end.

(** [*]: [k] is tried on every suffix of the text that the star may leave,
    within the segment. *)
Fixpoint any_suffix (k : list ascii -> bool) (s : list ascii) : bool :=
  k s ||
  match s with
  | [] => false
  | c :: s' => negb (is_slash c) && any_suffix k s'
  end.

(** [**]: as [*], across slashes, entering no segment that begins with a
    dot. *)
Fixpoint globstar (k : list ascii -> bool) (start : bool) (s : list ascii) : bool :=
  k s ||
  match s with
  | [] => false
  | c :: s' => negb (start && is_dot c) && globstar k (is_slash c) s'
  end.

(** [**/]: [k] is tried on the text and after each of its slashes, as long
    as the directories passed do not begin with a dot. *)
Fixpoint after_slashes (k : list ascii -> bool) (start : bool) (s : list ascii) : bool :=
  match s with
  | [] => false
  | c :: s' =>
      negb (start && is_dot c)
      && (is_slash c && k s' || after_slashes k (is_slash c) s')
  end.

Definition any_directory (k : list ascii -> bool) (start : bool) (s : list ascii) : bool :=
  k s || after_slashes k start s.

Fixpoint glob_match (start : bool) (p : list ascii) : list ascii -> bool :=
  match p with
  | [] => fun s => bool_decide (s = [])
  | c :: p1 =>
      if is_star c then
        match p1 with
        | c1 :: p2 =>
            if is_star c1 then
              match p2 with
              | c2 :: p3 =>
                  if is_slash c2 then any_directory (glob_match true p3) start
                  else globstar (glob_match false p2) start
              | [] => globstar (glob_match false p2) start
              end
            else fun s => undotted start s && any_suffix (glob_match false p1) s
        | [] => fun s => undotted start s && any_suffix (glob_match false p1) s
        end
      else if Ascii.eqb c "?"%char then
        fun s => match s with
                 | x :: s' =>
                     negb (is_slash x) && negb (start && is_dot x)
                     && glob_match false p1 s'
                 | [] => false
                 end
      else
        fun s => match s with
                 | x :: s' => Ascii.eqb c x && glob_match (is_slash c) p1 s'
                 | [] => false
                 end
  end.

Definition is_match (path glob : string) : bool :=
  String.eqb path glob || glob_match true (chars glob) (chars path).

(** anymatch: a path that a negated pattern matches has no match; otherwise
    the index of the first pattern, negated ones apart, that matches. *)
Fixpoint first_match (path : string) (i : Z) (gs : list string) : Z :=
  match gs with
  | [] => (-1)%Z
  | g :: gs' =>
      if negb (negated g) && is_match path g then i
      else first_match path (i + 1)%Z gs'
  end.

Definition posix_anymatch (gs : list string) (path : string) : Z :=
  if existsb (fun g => negated g && is_match path (slice1 g)) gs then (-1)%Z
  else first_match path 0%Z gs.

#[global] Instance posix : Host := {|
  process_cwd := "/proj";
  pathIsAbsolute := posix_isAbsolute;
  path_normalize := posix_normalize;
  path_resolve := posix_resolve "/proj";
  path_dirname := posix_dirname;
  normalize_path := posix_normalize_path;
  globParent := posix_globParent;
  anymatch := posix_anymatch
|}.

(** ** Observations

    What the properties below read off a state and off the collaborators. *)

(** The files pushed downstream, the calls of the per-file callback, the
    events emitted on the stream and the log entries, each in order. *)
Definition pushed (t : list effect) : list File :=
  omap (fun e => match e with EPush f => Some f | _ => None end) t.

Definition called (t : list effect) : list (nat * File) :=
  omap (fun e => match e with ECall k f => Some (k, f) | _ => None end) t.

Definition emitted (t : list effect) : list (string * option string) :=
  omap (fun e => match e with EEmit n a => Some (n, a) | _ => None end) t.



(** The [n]-th ancestor of a path, and whether the pattern set owns a path:
    [globs[anymatch(globs, p, true)]] is truthy. *)
Definition ancestor `{Host} (n : nat) (p : string) : string :=
  Nat.iter n path_dirname p.

Definition owned `{Host} (gs : list string) (p : string) : bool :=
  truthy_elt (array_get gs (anymatch gs p)).

(** The pattern list [add] and [watch] obtain from a list without negated
    patterns. *)
Definition plain (l : list string) : bool :=
  forallb (fun g => negb (negated g)) l.

Definition resolved `{Host} (o : gmap string jsval) (l : list string) : list string :=
  map (fun g => normalize_path (resolveFilepath o g)) l.




(** ** Sessions

    What can happen to a session once [watch] has returned: the watcher
    emits an event, a timer fires, a read settles, the application writes a
    file into the stream, calls [add], [unwatch] or [close], or attaches a
    listener to the stream. *)
Inductive op :=
| Raw (event arg : string)
| Fire (i : nat)
| Settle (i : nat) (o : outcome)
| Inject (f : File)
| Add (newGlobs : jsval)
| Unwatch (paths : jsval)
| Close
| Listen (name : string).

(** One step.  A timer or a read that does not exist has nothing to run. *)
Definition apply_op `{Host} (b : binding) (cfg : config) (st : state) (x : op)
  : result state :=
  match x with
  | Raw event arg => watcher_emit b cfg st event arg
  | Fire i => Ok (default st (timeout st i))
  | Settle i o => Ok (default st (settle cfg st i o))
  | Inject f => Ok (_write cfg st f)
  | Add newGlobs => add b cfg st newGlobs
  | Unwatch paths => Ok (unwatch st paths)
  | Close => Ok (close st)
  | Listen name => Ok (record st [EListen name])
  end.

(** A session runs as long as its steps return; the first exception, or a
    loop that does not end, is the outcome of the run. *)
Fixpoint run `{Host} (b : binding) (cfg : config) (st : state) (xs : list op)
  : result state :=
  match xs with
  | [] => Ok st
  | x :: xs => st ← apply_op b cfg st x; run b cfg st xs
  end.



Definition stream_events (xs : list op) : list (string * option string) :=
  xs ≫= fun x =>
    match x with
    | Raw event arg =>
        if bool_decide (event ∈ mirrored) then [(event, Some arg)] else []
    | Close => [("end", None)]
    | _ => []
    end.

(** The files handed to the per-file callback. *)
Definition handed (t : list effect) : list File := snd <$> called t.

(** The verb [log] makes of an event name (line 152). *)
Definition verb (event : string) : string :=
  if ends_with_e event then event +:+ "d" else event +:+ "ed".

(** Effects that put no named event on the stream and hand the callback,
    when the caller gave one, the files they push. *)
Definition quiet (cfg : config) (es : list effect) : Prop :=
  emitted es = []
  /\ forall k, cb cfg = UserCallback k -> handed es = pushed es.

(** ** Sample sessions

    The configuration and the state [watch] returns when it is given a
    pattern argument and nothing else, and the parts the examples below are
    built from. *)
Definition default_cfg (g : jsval) : config :=
  {| opts := watch_defaultOptions; cb := NoopCallback; originalGlobs := g;
     baseForced := false |}.

Definition fresh (gs : list string) : state :=
  {| globs := gs; timers := []; reads := []; trace := [EWatch gs] |}.

(** A read of [src/a.js] after a [change], as [processEvent] schedules it
    for the pattern [src/**/*.js], and the file vinyl-file makes of it. *)
Definition read_a : pending :=
  {| p_event := "change"; p_filepath := "/proj/src/a.js";
     p_fileOpts := <["base" := JStr "/proj/src"]> watch_defaultOptions |}.

Definition file_a : File :=
  {| f_opts := <["path" := JStr "/proj/src/a.js"]> (p_fileOpts read_a);
     f_contents := Some "a"; f_stat := Some 1%Z; f_event := None |}.

(** A session with a callback, as [watch] returns it for a function in the
    place of [opts], and steps of it that return at [ConstBinding]: a
    directory appears (a kind of event the default options do not list), the
    application writes a file into the stream, adds a pattern, unwatches a
    path and closes, and writes the file again. *)
Definition callback_cfg : config :=
  {| opts := watch_defaultOptions; cb := UserCallback 7;
     originalGlobs := JStr "src/**/*.js"; baseForced := false |}.

Definition sample_steps : list op :=
  [Raw "addDir" "src/lib"; Inject file_a; Add (JStr "tests/*.spec.js");
   Unwatch (JStr "src/lib"); Close; Inject file_a].

(** * Properties *)

(** ** The declarations at [ConstBinding] *)
Section Source.
Context `{Host}.

(** [assign({}, o)] is a copy of [o]. *)
Lemma assign_copy (o : gmap string jsval) : assign ∅ [o] = o.
Proof. unfold assign. cbn. apply (right_id_L ∅ (∪)). Qed.

Lemma owner_loop_const fuel gs p :
  owner_loop ConstBinding (S fuel) gs p = Throw const_assignment.
Proof. reflexivity. Qed.

(** Line 103 assigns to [glob] before anything else happens: every call of
    [processEvent] ends there. *)
Lemma processEvent_const cfg st event filepath :
  processEvent ConstBinding cfg st event filepath = Throw const_assignment.
Proof. reflexivity. Qed.



(** [resolveGlob] on a pattern without the marker, and on one with it. *)
Lemma resolveGlob_plain b o glob :
  negated glob = false ->
  resolveGlob b o glob = Ok (normalize_path (resolveFilepath o glob)).
Proof. intros Hn. unfold resolveGlob. by rewrite Hn. Qed.

Lemma resolveGlob_const_negated o glob :
  negated glob = true ->
  resolveGlob ConstBinding o glob = Throw const_assignment.
Proof. intros Hn. unfold resolveGlob. by rewrite Hn. Qed.

Lemma resolveGlob_let_negated o glob :
  negated glob = true ->
  resolveGlob LetBinding o glob
  = Ok ("!" +:+ normalize_path (resolveFilepath o (slice1 glob))).
Proof. intros Hn. unfold resolveGlob. by rewrite Hn. Qed.

(** Resolving a list without negated patterns keeps its length and order. *)
Lemma map_result_plain b o l :
  plain l = true ->
  map_result (resolveGlob b o) l = Ok (resolved o l).
Proof.
  unfold plain, resolved. induction l as [|g l IH]; intros Hl; [reflexivity|].
  cbn [forallb] in Hl. apply andb_prop in Hl as [Hg Hl].
  cbn [map_result map]. rewrite resolveGlob_plain.
  - cbn. rewrite (IH Hl). reflexivity.
  - by destruct (negated g).
Qed.

(** The first negated pattern ends the traversal. *)
Lemma map_result_const_negated o l :
  plain l = false ->
  map_result (resolveGlob ConstBinding o) l = Throw const_assignment.
Proof.
  unfold plain. induction l as [|g l IH]; intros Hl; [discriminate|].
  cbn [forallb] in Hl. cbn [map_result].
  destruct (negated g) eqn:Hg.
  - by rewrite resolveGlob_const_negated.
  - rewrite resolveGlob_plain by done. cbn. rewrite (IH Hl). reflexivity.
Qed.

(** With mutable declarations every pattern resolves, marker kept. *)
Lemma map_result_let o l :
  map_result (resolveGlob LetBinding o) l
  = Ok (map (fun g => if negated g
                      then "!" +:+ normalize_path (resolveFilepath o (slice1 g))
                      else normalize_path (resolveFilepath o g)) l).
Proof.
  induction l as [|g l IH]; [reflexivity|].
  cbn [map_result map]. destruct (negated g) eqn:Hg.
  - rewrite resolveGlob_let_negated by done. cbn. by rewrite IH.
  - rewrite resolveGlob_plain by done. cbn. by rewrite IH.
Qed.

End Source.

(** ** What [write] adds to the trace *)
Section Traces.
Context `{Host}.

Lemma pushed_app a b : pushed (a ++ b) = pushed a ++ pushed b.
Proof. apply omap_app. Qed.

Lemma called_app a b : called (a ++ b) = called a ++ called b.
Proof. apply omap_app. Qed.

Lemma pushed_call c f : pushed (call c f) = [].
Proof. by destruct c. Qed.

Lemma called_call_user k f : called (call (UserCallback k) f) = [(k, f)].
Proof. reflexivity. Qed.

(** [write] without an error pushes the tagged file, once, and hands it to
    the callback; the reporter, when on, pushes and calls nothing. *)
Lemma write_pushed cfg st event file :
  pushed (trace (write cfg st event None file))
  = pushed (trace st) ++ [tag event file].
Proof.
  unfold write, log, record. destruct (truthy _); cbn [trace];
    rewrite ?pushed_app; cbn; rewrite pushed_call, ?app_nil_r; reflexivity.
Qed.

Lemma write_called cfg st event file :
  called (trace (write cfg st event None file))
  = called (trace st) ++ called (call (cb cfg) (tag event file)).
Proof.
  unfold write, log, record. destruct (truthy _); cbn [trace];
    rewrite ?called_app; cbn; rewrite ?app_nil_r; reflexivity.
Qed.

End Traces.

(** ** The loop of line 103 with mutable declarations

    What the loop computes once [glob] and [currentFilepath] can be assigned
    to: the walk up the ancestors of the path. *)
Section Walk.
Context `{Host}.

Lemma ancestor_dirname n p : ancestor n (path_dirname p) = ancestor (S n) p.
Proof. unfold ancestor. by rewrite <- Nat.iter_succ_r. Qed.

Lemma owner_loop_let_step fuel gs p :
  owner_loop LetBinding (S fuel) gs p
  = if owned gs p then Ok (array_get gs (anymatch gs p))
    else if String.eqb p (path_dirname p) then Ok (array_get gs (anymatch gs p))
    else owner_loop LetBinding fuel gs (path_dirname p).
Proof. reflexivity. Qed.

(** The loop stops at the first ancestor the pattern set owns, having tried
    the path and every ancestor below it. *)
Lemma owner_loop_let_found gs n : forall fuel p,
  n < fuel ->
  (forall k, k < n -> owned gs (ancestor k p) = false
                      /\ ancestor (S k) p <> ancestor k p) ->
  owned gs (ancestor n p) = true ->
  owner_loop LetBinding fuel gs p
  = Ok (array_get gs (anymatch gs (ancestor n p))).
Proof.
  induction n as [|n IH]; intros fuel p Hfuel Hbelow Hown.
  - destruct fuel as [|fuel]; [lia|].
    rewrite owner_loop_let_step. cbn in Hown. by rewrite Hown.
  - destruct fuel as [|fuel]; [lia|].
    rewrite owner_loop_let_step.
    destruct (Hbelow 0 ltac:(lia)) as [H0 Hne]. cbn in H0, Hne.
    rewrite H0.
    destruct (String.eqb p (path_dirname p)) eqn:E.
    { apply String.eqb_eq in E. congruence. }
    rewrite <- ancestor_dirname in Hown. rewrite <- ancestor_dirname.
    apply IH; [lia| |done].
    intros k Hk. rewrite !ancestor_dirname. apply Hbelow. lia.
Qed.

(** The loop gives up at the first ancestor that is its own parent, when the
    pattern set owns neither it nor anything below it. *)
Lemma owner_loop_let_root gs n : forall fuel p,
  n < fuel ->
  (forall k, k <= n -> owned gs (ancestor k p) = false) ->
  (forall k, k < n -> ancestor (S k) p <> ancestor k p) ->
  ancestor (S n) p = ancestor n p ->
  owner_loop LetBinding fuel gs p
  = Ok (array_get gs (anymatch gs (ancestor n p))).
Proof.
  induction n as [|n IH]; intros fuel p Hfuel Hun Hne Hroot.
  - destruct fuel as [|fuel]; [lia|].
    rewrite owner_loop_let_step.
    pose proof (Hun 0 ltac:(lia)) as H0. cbn in H0, Hroot. rewrite H0.
    cbn. rewrite Hroot, String.eqb_refl. reflexivity.
  - destruct fuel as [|fuel]; [lia|].
    rewrite owner_loop_let_step.
    pose proof (Hun 0 ltac:(lia)) as H0. cbn in H0. rewrite H0.
    pose proof (Hne 0 ltac:(lia)) as H1. cbn in H1.
    destruct (String.eqb p (path_dirname p)) eqn:E.
    { apply String.eqb_eq in E. congruence. }
    rewrite <- ancestor_dirname.
    apply IH; [lia| | |].
    + intros k Hk. rewrite ancestor_dirname. apply Hun. lia.
    + intros k Hk. rewrite !ancestor_dirname. apply Hne. lia.
    + rewrite !ancestor_dirname. exact Hroot.
Qed.

(** Whatever the loop returns is a value it read from the pattern array for
    some ancestor; it is falsy only if no ancestor up to there is owned. *)
Lemma owner_loop_let_unowned gs : forall fuel p glob,
  (forall n, owned gs (ancestor n p) = false) ->
  owner_loop LetBinding fuel gs p = Ok glob ->
  truthy_elt glob = false.
Proof.
  induction fuel as [|fuel IH]; intros p glob Hun Hloop; [discriminate|].
  rewrite owner_loop_let_step in Hloop.
  pose proof (Hun 0) as H0. cbn in H0. rewrite H0 in Hloop.
  destruct (String.eqb p (path_dirname p)).
  - injection Hloop as <-. exact H0.
  - apply (IH (path_dirname p)); [|done].
    intros n. rewrite ancestor_dirname. apply Hun.
Qed.

Lemma owner_loop_let_no_throw gs : forall fuel p e,
  owner_loop LetBinding fuel gs p <> Throw e.
Proof.
  induction fuel as [|fuel IH]; intros p e; [discriminate|].
  rewrite owner_loop_let_step.
  destruct (owned gs p); [discriminate|].
  destruct (String.eqb p (path_dirname p)); [discriminate|]. apply IH.
Qed.

(** Above an ancestor that is its own parent there is nothing new to try. *)
Lemma ancestor_fixed m p : forall n,
  path_dirname (ancestor m p) = ancestor m p ->
  ancestor (n + m) p = ancestor m p.
Proof.
  induction n as [|n IH]; intros Hfix; [reflexivity|].
  change (ancestor (S n + m) p) with (path_dirname (ancestor (n + m) p)).
  by rewrite IH.
Qed.

Lemma unowned_above gs m p :
  path_dirname (ancestor m p) = ancestor m p ->
  (forall k, k <= m -> owned gs (ancestor k p) = false) ->
  forall n, owned gs (ancestor n p) = false.
Proof.
  intros Hfix Hlow n. destruct (decide (n <= m)) as [Hle|Hgt]; [by apply Hlow|].
  replace n with ((n - m) + m) by lia.
  rewrite ancestor_fixed by done. by apply Hlow.
Qed.

(** Termination.  On a host whose [path.dirname] maps an absolute path to
    itself or to a shorter absolute path, the loop started on an absolute
    path ends within the budget [processEvent] gives it. *)
Hypothesis dirname_shrinks : forall p,
  pathIsAbsolute p = true ->
  path_dirname p = p
  \/ (String.length (path_dirname p) < String.length p
      /\ pathIsAbsolute (path_dirname p) = true).

Lemma owner_loop_let_returns gs : forall fuel p,
  pathIsAbsolute p = true ->
  String.length p < fuel ->
  exists glob, owner_loop LetBinding fuel gs p = Ok glob.
Proof.
  induction fuel as [|fuel IH]; intros p Habs Hlen; [lia|].
  rewrite owner_loop_let_step.
  destruct (owned gs p); [eauto|].
  destruct (String.eqb p (path_dirname p)) eqn:E; [eauto|].
  destruct (dirname_shrinks p Habs) as [Heq|[Hlt Habs']].
  - rewrite Heq, String.eqb_refl in E. discriminate.
  - apply IH; [done|lia].
Qed.

End Walk.

(** ** [processEvent] with mutable declarations

    What lines 105-133 do with the owner the loop has found. *)
Section Mutable.
Context `{Host}.

(** A deletion is built from the options, the base and the path, tagged and
    pushed in the same call; no timer is set and no read is started. *)
Lemma processEvent_let_unlink cfg st event filepath g :
  owner_loop LetBinding (S (String.length (resolveFilepath (opts cfg) filepath)))
    (globs st) (resolveFilepath (opts cfg) filepath) = Ok (Some g) ->
  g <> "" ->
  unlink_event event = true ->
  exists st',
    processEvent LetBinding cfg st event filepath = Ok st'
    /\ globs st' = globs st /\ timers st' = timers st /\ reads st' = reads st
    /\ pushed (trace st')
       = pushed (trace st)
         ++ [{| f_opts :=
                  <["path" := JStr (resolveFilepath (opts cfg) filepath)]>
                    (if baseForced cfg then opts cfg
                     else <["base" := JStr (path_normalize (globParent g))]>
                            (opts cfg));
                f_contents := None; f_stat := None; f_event := Some event |}].
Proof.
  intros Hloop Hg Hev. unfold processEvent. rewrite assign_copy, Hloop.
  cbn [mbind result_bind truthy_elt].
  apply String.eqb_neq in Hg. rewrite Hg. cbn [negb]. rewrite Hev.
  eexists. split; [reflexivity|].
  assert (forall s f, globs (write cfg s event None f) = globs s
                      /\ timers (write cfg s event None f) = timers s
                      /\ reads (write cfg s event None f) = reads s) as Hw.
  { intros s f. unfold write, log, record. by destruct (truthy _). }
  destruct (Hw st (new_File (<["path" := JStr (resolveFilepath (opts cfg) filepath)]>
                    (if baseForced cfg then opts cfg
                     else <["base" := JStr (path_normalize (globParent (default "" (Some g))))]>
                            (opts cfg))))) as (Hg' & Ht & Hr).
  split; [exact Hg'|]. split; [exact Ht|]. split; [exact Hr|].
  apply (write_pushed cfg st event).
Qed.

(** Any other event sets one timer, for a read of the resolved path with the
    options and the base; nothing is pushed yet. *)
Lemma processEvent_let_schedules cfg st event filepath g :
  owner_loop LetBinding (S (String.length (resolveFilepath (opts cfg) filepath)))
    (globs st) (resolveFilepath (opts cfg) filepath) = Ok (Some g) ->
  g <> "" ->
  unlink_event event = false ->
  exists p,
    processEvent LetBinding cfg st event filepath
    = Ok {| globs := globs st; timers := timers st ++ [p]; reads := reads st;
            trace := trace st ++ [ESetTimeout (prop (opts cfg) "readDelay") p] |}
    /\ p_event p = event
    /\ p_filepath p = resolveFilepath (opts cfg) filepath
    /\ p_fileOpts p
       = if baseForced cfg then opts cfg
         else <["base" := JStr (path_normalize (globParent g))]> (opts cfg).
Proof.
  intros Hloop Hg Hev. unfold processEvent. rewrite assign_copy, Hloop.
  cbn [mbind result_bind truthy_elt].
  apply String.eqb_neq in Hg. rewrite Hg. cbn [negb]. rewrite Hev.
  eexists. split; [reflexivity|]. repeat split.
Qed.

(** Every pattern list resolves, in order, each pattern to an absolute
    pattern, the marker of a negated one kept. *)
Lemma add_let cfg st newGlobs l :
  normalizeGlobs newGlobs = Ok l ->
  exists r,
    add LetBinding cfg st newGlobs
    = Ok {| globs := globs st ++ r; timers := timers st; reads := reads st;
            trace := trace st ++ [EWatcherAdd r] |}
    /\ length r = length l
    /\ forall i g, l !! i = Some g ->
         r !! i = Some (if negated g
                        then "!" +:+ normalize_path
                                       (resolveFilepath (opts cfg) (slice1 g))
                        else normalize_path (resolveFilepath (opts cfg) g)).
Proof.
  intros Hl. eexists. split; [|split].
  - unfold add. rewrite Hl. cbn [mbind result_bind].
    by rewrite map_result_let.
  - by rewrite length_map.
  - intros i g Hi. by rewrite list_lookup_fmap, Hi.
Qed.

End Mutable.

(** ** The POSIX host terminates the loop *)
Section PosixDirname.

Lemma length_chars p : length (chars p) = String.length p.
Proof. induction p as [|c p IH]; cbn; [done|by rewrite <- IH]. Qed.

Lemma length_str l : String.length (str l) = length l.
Proof. induction l as [|c l IH]; cbn; [done|by rewrite <- IH]. Qed.

Lemma drop_while_split {A} (f : A -> bool) l :
  exists d, l = d ++ drop_while f l.
Proof.
  induction l as [|a l [d IH]]; [by exists []|].
  cbn. destruct (f a).
  - exists (a :: d). cbn. by rewrite <- IH.
  - by exists [].
Qed.

Lemma drop_while_head {A} (f : A -> bool) l a t :
  drop_while f l = a :: t -> f a = false.
Proof.
  induction l as [|x l IH]; cbn; [done|].
  destruct (f x) eqn:E; [done|]. intros [= -> _]. exact E.
Qed.

(** Where [path.dirname] cuts: the path is the part kept, the slash before
    the last segment, that segment (which is not empty), and the trailing
    slashes. *)
Lemma dirname_cut p x r :
  drop_while (fun c => negb (is_slash c)) (drop_while is_slash (rev (chars p)))
  = x :: r ->
  exists seg tail, chars p = rev r ++ x :: seg ++ tail /\ seg <> [].
Proof.
  intros Hr.
  destruct (drop_while_split is_slash (rev (chars p))) as [d1 H1].
  destruct (drop_while_split (fun c => negb (is_slash c))
              (drop_while is_slash (rev (chars p)))) as [d2 H2].
  rewrite Hr in H2. exists (rev d2), (rev d1). split.
  - rewrite <- (rev_involutive (chars p)), H1, H2.
    rewrite !rev_app_distr. cbn. by rewrite <- !app_assoc.
  - destruct d2 as [|c d2]; [|cbn; by destruct (rev d2)].
    cbn in H2. pose proof (drop_while_head _ _ _ _ H2) as Hx.
    pose proof (drop_while_head _ _ _ _ Hr) as Hx'. cbn in Hx'.
    rewrite Hx in Hx'. discriminate.
Qed.

Lemma is_slash_eq c : is_slash c = true -> c = "/"%char.
Proof. apply Ascii.eqb_eq. Qed.

Lemma posix_absolute_chars p :
  posix_isAbsolute p = true -> exists t, chars p = "/"%char :: t.
Proof.
  destruct p as [|c p]; cbn; [done|]. intros Hc. exists (chars p).
  by rewrite (is_slash_eq c Hc).
Qed.

Lemma posix_absolute_str l :
  posix_isAbsolute (str l) = match l with c :: _ => is_slash c | [] => false end.
Proof. by destruct l. Qed.

(** [path.dirname] maps an absolute path to itself (the root) or to a
    shorter absolute path. *)
Lemma posix_dirname_shrinks p :
  posix_isAbsolute p = true ->
  posix_dirname p = p
  \/ (String.length (posix_dirname p) < String.length p
      /\ posix_isAbsolute (posix_dirname p) = true).
Proof.
  intros Habs. destruct (posix_absolute_chars p Habs) as [t Ht].
  unfold posix_dirname.
  destruct (drop_while _ (drop_while is_slash (rev (chars p)))) as [|x r] eqn:Hr.
  - rewrite Habs. destruct t as [|c t].
    + left. transitivity (str (chars p)); [by rewrite Ht|].
      apply String.string_of_list_ascii_of_string.
    + right. split; [|done]. rewrite <- (length_chars p), Ht. cbn. lia.
  - destruct (dirname_cut p x r Hr) as (seg & tail & Hp & Hseg).
    assert (length r + 2 <= String.length p) as Hlen.
    { rewrite <- (length_chars p), Hp, !length_app, length_rev. cbn.
      rewrite length_app. destruct seg; [done|cbn; lia]. }
    right. destruct r as [|c [|c' r]].
    + cbn. split; [lia|done].
    + assert (c = "/"%char) as ->.
      { rewrite Ht in Hp. cbn in Hp. congruence. }
      cbn. split; [cbn in Hlen; lia|done].
    + split.
      * rewrite length_str, length_rev. lia.
      * rewrite posix_absolute_str.
        rewrite Ht in Hp. remember (c :: c' :: r) as r' eqn:Hr'.
        destruct (rev r') as [|y ry] eqn:Hrev.
        { apply (f_equal (@length _)) in Hrev.
          rewrite length_rev, Hr' in Hrev. discriminate. }
        cbn in Hp. injection Hp as <- _. done.
Qed.

End PosixDirname.

(** ** On the POSIX host [processEvent] returns *)
Section PosixTotal.

Lemma normalize_chars_absolute keep c l :
  is_slash c = true ->
  posix_isAbsolute (str (normalize_chars keep (c :: l))) = true.
Proof.
  intros Hc. unfold normalize_chars. cbv zeta. cbv iota. rewrite Hc.
  reflexivity.
Qed.

(** [resolveFilepath] yields an absolute path, whatever it is given. *)
Lemma posix_resolveFilepath_absolute o filepath :
  posix_isAbsolute (resolveFilepath o filepath) = true.
Proof.
  unfold resolveFilepath. cbn [pathIsAbsolute path_normalize path_resolve posix].
  destruct (posix_isAbsolute filepath) eqn:Habs.
  - destruct filepath as [|c p]; [discriminate|].
    cbn in Habs. unfold posix_normalize. cbn [chars String.list_ascii_of_string].
    by apply normalize_chars_absolute.
  - unfold posix_resolve. rewrite Habs.
    destruct (posix_isAbsolute (cwd_of o)) eqn:Hcwd.
    + destruct (cwd_of o) as [|c p]; [discriminate|]. cbn in Hcwd.
      cbn [String.append chars String.list_ascii_of_string].
      by apply normalize_chars_absolute.
    + cbn [String.append chars String.list_ascii_of_string].
      by apply normalize_chars_absolute.
Qed.

(** With mutable declarations the loop ends for every event: the walk
    reaches the root within the budget. *)
Lemma posix_owner_loop_returns gs o filepath :
  exists glob,
    owner_loop LetBinding (S (String.length (resolveFilepath o filepath))) gs
      (resolveFilepath o filepath) = Ok glob.
Proof.
  apply (@owner_loop_let_returns posix posix_dirname_shrinks).
  - apply posix_resolveFilepath_absolute.
  - lia.
Qed.

Lemma posix_processEvent_let_returns cfg st event filepath :
  exists st', processEvent LetBinding cfg st event filepath = Ok st'.
Proof.
  unfold processEvent.
  destruct (posix_owner_loop_returns (globs st) (opts cfg) filepath) as [glob ->].
  cbn [mbind result_bind].
  destruct (negb (truthy_elt glob)); [eauto|].
  destruct (unlink_event event); eauto.
Qed.

End PosixTotal.

(** * The claims of the specification *)

(** ** Owner lookup walks up the ancestors (C1) *)

(** C1.  For an event whose path no pattern matches, the correlator is to
    retry the match on each ancestor directory until one matches or the root
    is reached.  The source does not get that far.  With the pattern [src] and
    a file created inside that directory, the path itself is not owned and
    its parent is, which is the case the loop of line 103 is written for;
    [processEvent] throws when the loop condition first assigns to [glob]
    (declared [const] on line 101), before any parent is looked at.  With
    the declarations mutable the same call finds the owner one level up and
    schedules the read. *)
Example processEvent_never_walks_ancestors :
  exists cfg st,
    watch ConstBinding (JStr "src") OptsUndefined None = Ok (cfg, st)
    /\ owned (globs st) "/proj/src/new.txt" = false
    /\ owned (globs st) (ancestor 1 "/proj/src/new.txt") = true
    /\ processEvent ConstBinding cfg st "add" "src/new.txt"
       = Throw const_assignment
    /\ watcher_emit ConstBinding cfg st "add" "src/new.txt"
       = Throw const_assignment
    /\ exists st',
         processEvent LetBinding cfg st "add" "src/new.txt" = Ok st'
         /\ timers st'
            = [{| p_event := "add"; p_filepath := "/proj/src/new.txt";
                  p_fileOpts := <["base" := JStr "/proj"]> (opts cfg) |}].
Proof.
  exists (default_cfg (JStr "src")), (fresh ["/proj/src"]).
  repeat split; try reflexivity.
  eexists. split; reflexivity.
Qed.

(** ** Negated patterns (C3) *)

(** C3.  Normalization is to keep the leading [!] of a pattern.
    [resolveGlob] takes the marker off by assigning it to [mod], which
    line 52 declares [const]: a pattern list with a negated pattern makes
    [watch] throw, and so does [add].  With [mod] mutable the same list
    resolves to absolute patterns of the same length and order, marker
    kept. *)
Example negated_pattern_throws :
  watch ConstBinding (JArr ["src/**/*.js"; "!src/vendor/**"]) OptsUndefined None
  = Throw const_assignment
  /\ add ConstBinding (default_cfg (JStr "src/**/*.js"))
       (fresh ["/proj/src/**/*.js"]) (JStr "!src/vendor/**")
     = Throw const_assignment
  /\ watch LetBinding (JArr ["src/**/*.js"; "!src/vendor/**"]) OptsUndefined None
     = Ok (default_cfg (JArr ["src/**/*.js"; "!src/vendor/**"]),
           fresh ["/proj/src/**/*.js"; "!/proj/src/vendor/**"]).
Proof. repeat split; reflexivity. Qed.

(** ** Deletions (C6) *)

(** C6.  An owned [unlink] event is to be emitted at once, without a read
    and without a timer, carrying path metadata only.  In the source the
    event ends at line 103 like every other: nothing is pushed.  With the
    declarations mutable the file is built from the options, the base and
    the path, tagged [unlink] and pushed in the same call, and no timer or
    read is added. *)
Example unlink_event_not_emitted :
  exists cfg st,
    watch ConstBinding (JStr "src/**/*.js") OptsUndefined None = Ok (cfg, st)
    /\ owned (globs st) "/proj/src/a/b.js" = true
    /\ processEvent ConstBinding cfg st "unlink" "src/a/b.js"
       = Throw const_assignment
    /\ processEvent LetBinding cfg st "unlink" "src/a/b.js"
       = Ok {| globs := globs st; timers := []; reads := [];
               trace := trace st ++
                 [EPush {| f_opts := <["path" := JStr "/proj/src/a/b.js"]>
                                      (<["base" := JStr "/proj/src"]> (opts cfg));
                           f_contents := None; f_stat := None;
                           f_event := Some "unlink" |}] |}.
Proof.
  exists (default_cfg (JStr "src/**/*.js")), (fresh ["/proj/src/**/*.js"]).
  repeat split; reflexivity.
Qed.

(** ** Events nobody owns (C5) *)

(** A program that loads the module as committed gets no session at all:
    [require] throws on line 101. *)
Lemma required_watch_const `{Host} g o c :
  required_watch ConstBinding g o c = Throw missing_initializer.
Proof. reflexivity. Qed.

(** C5.  For an event whose path and ancestors match no pattern, the
    correlator is to produce a diagnostic report and carry on.  The session
    watches [src/**/*.js] and has [add]ed [tests/*.spec.js]; then
    [other/c.js] appears, which no pattern owns at any level.  The call of
    [processEvent] ends at line 103, before the test of line 105: nothing is
    logged, and the exception leaves the watcher's listener.  (A program
    that loads the module as committed does not get as far as a session.)
    With the declarations mutable the walk ends at the root and the report
    is logged; it lists the pattern argument of [watch], line 111. *)
Example unowned_event_is_not_reported :
  required_watch ConstBinding (JStr "src/**/*.js") OptsUndefined None
  = Throw missing_initializer
  /\ exists st,
       add ConstBinding (default_cfg (JStr "src/**/*.js"))
         (fresh ["/proj/src/**/*.js"]) (JArr ["tests/*.spec.js"]) = Ok st
       /\ globs st = ["/proj/src/**/*.js"; "/proj/tests/*.spec.js"]
       /\ (forall n, owned (globs st) (ancestor n "/proj/other/c.js") = false)
       /\ processEvent ConstBinding (default_cfg (JStr "src/**/*.js")) st
            "add" "other/c.js" = Throw const_assignment
       /\ watcher_emit ConstBinding (default_cfg (JStr "src/**/*.js")) st
            "add" "other/c.js" = Throw const_assignment
       /\ processEvent LetBinding (default_cfg (JStr "src/**/*.js")) st
            "add" "other/c.js"
          = Ok (record st [ELog (Unexpected
                  {| r_globs := JStr "src/**/*.js";
                     r_filepath := "/proj/other/c.js"; r_event := "add";
                     r_cwd := "/proj"; r_opts := watch_defaultOptions |})]).
Proof.
  split; [reflexivity|]. eexists. split; [reflexivity|].
  split; [reflexivity|]. split; [|repeat split; reflexivity].
  apply (unowned_above _ 3); [reflexivity|].
  intros k Hk. do 4 (destruct k as [|k]; [reflexivity|]). lia.
Qed.

(** ** Adding patterns at runtime (C8) *)

(** C8.  After [add], an event under an added pattern is to be resolved to
    that pattern.  The session watches [src/**/*.js]; [add] resolves
    [tests/*.spec.js], hands it to the watcher and appends it to the live
    array, as the claim says.  Then [tests/a.spec.js] appears: the added
    pattern is the one [anymatch] selects (index 1), but [processEvent]
    throws at line 103 when it assigns the pattern to [glob], so the event
    is resolved to nothing.  With the declarations mutable the read is
    scheduled with the base of the added pattern. *)
Example event_under_added_pattern_throws :
  required_watch ConstBinding (JStr "src/**/*.js") OptsUndefined None
  = Throw missing_initializer
  /\ exists st,
       add ConstBinding (default_cfg (JStr "src/**/*.js"))
         (fresh ["/proj/src/**/*.js"]) (JStr "tests/*.spec.js") = Ok st
       /\ globs st = ["/proj/src/**/*.js"; "/proj/tests/*.spec.js"]
       /\ trace st = [EWatch ["/proj/src/**/*.js"];
                      EWatcherAdd ["/proj/tests/*.spec.js"]]
       /\ anymatch (globs st) "/proj/tests/a.spec.js" = 1%Z
       /\ processEvent ConstBinding (default_cfg (JStr "src/**/*.js")) st
            "add" "tests/a.spec.js" = Throw const_assignment
       /\ watcher_emit ConstBinding (default_cfg (JStr "src/**/*.js")) st
            "add" "tests/a.spec.js" = Throw const_assignment
       /\ exists st',
            processEvent LetBinding (default_cfg (JStr "src/**/*.js")) st
              "add" "tests/a.spec.js" = Ok st'
            /\ timers st'
               = [{| p_event := "add"; p_filepath := "/proj/tests/a.spec.js";
                     p_fileOpts := <["base" := JStr "/proj/tests"]>
                                     watch_defaultOptions |}].
Proof.
  split; [reflexivity|]. eexists. split; [reflexivity|].
  repeat split; try reflexivity.
  eexists. split; reflexivity.
Qed.

(** ** The pattern argument (C7) *)

(** C7, as stated, fails on two inputs: normalization is to fail for an
    empty argument, and a wrong-typed argument such as a number is to fail
    with the invalid-argument error.  The empty list is accepted, by
    [normalizeGlobs] and by [watch]; and the number [0], being falsy, is
    caught by the first test (line 17) and reported as a missing argument. *)
Example empty_list_accepted_and_zero_reported_missing :
  normalizeGlobs (JArr []) = Ok []
  /\ watch ConstBinding (JArr []) OptsUndefined None
     = Ok (default_cfg (JArr []), fresh [])
  /\ normalizeGlobs (JNum 0) = Throw glob_required
  /\ typeof (JNum 0) = "number".
Proof. repeat split; reflexivity. Qed.

(** C7, amended.  Normalization fails, and [watch] with it before anything
    is set up, for every falsy argument ([undefined], [null], the empty
    string, [0], [NaN], [false]) with "glob argument required", and for
    every truthy argument that is neither a string nor a list with "glob
    should be String or Array, not" followed by its type; the two errors are
    different whatever the type.  So [undefined] and [123] both fail, with
    different errors.  The empty list is accepted. *)
Theorem normalizeGlobs_failures `{Host} (g : jsval) :
  (truthy g = false -> normalizeGlobs g = Throw glob_required)
  /\ (truthy g = true -> (forall s, g <> JStr s) -> (forall l, g <> JArr l) ->
      normalizeGlobs g = Throw (glob_wrong_type (typeof g)))
  /\ (forall ty, glob_required <> glob_wrong_type ty)
  /\ (forall b o c e, normalizeGlobs g = Throw e -> watch b g o c = Throw e)
  /\ (forall l, g = JArr l -> normalizeGlobs g = Ok l).
Proof.
  split; [|split; [|split; [|split]]].
  - intros Hf. unfold normalizeGlobs. by rewrite Hf.
  - intros Ht Hs Hl. unfold normalizeGlobs. rewrite Ht. cbn [negb].
    destruct g; try reflexivity.
    + by destruct (Hs s).
    + by destruct (Hl l).
  - intros ty. unfold glob_required, glob_wrong_type. intros [= Heq].
  - intros b o c e He. unfold watch. by rewrite He.
  - by intros l ->.
Qed.

(** [normalizeGlobs_failures] at [undefined] and at [123]. *)
Lemma normalizeGlobs_failures_witness :
  normalizeGlobs JUndefined = Throw glob_required
  /\ normalizeGlobs (JNum 123) = Throw (glob_wrong_type "number")
  /\ glob_required <> glob_wrong_type "number"
  /\ watch ConstBinding JUndefined OptsUndefined None = Throw glob_required
  /\ watch ConstBinding (JNum 123) OptsUndefined None
     = Throw (glob_wrong_type "number").
Proof.
  destruct (normalizeGlobs_failures JUndefined) as (Hmissing & _ & Hne & Hw & _).
  destruct (normalizeGlobs_failures (JNum 123)) as (_ & Hinvalid & _ & Hw' & _).
  assert (normalizeGlobs (JNum 123) = Throw (glob_wrong_type "number")) as Hi.
  { apply Hinvalid; [reflexivity|discriminate|discriminate]. }
  split; [apply Hmissing; reflexivity|].
  split; [exact Hi|].
  split; [apply Hne|].
  split; [apply Hw, Hmissing; reflexivity|apply Hw', Hi].
Defined.

(** ** The callback and the default options (C10) *)

Lemma watch_config `{Host} b g o c cfg st :
  watch b g o c = Ok (cfg, st) ->
  (opts cfg, cb cfg) = watch_args o c.
Proof.
  unfold watch. destruct (normalizeGlobs g) as [l| |]; [|done|done].
  cbn [mbind result_bind]. destruct (watch_args o c) as [o' c'].
  destruct (map_result _ l) as [r| |]; [|done|done].
  cbn [mbind result_bind]. destruct (forEach_of _); [|done].
  by intros [= <- _].
Qed.

Lemma _write_called cfg st file :
  called (trace (_write cfg st file))
  = called (trace st) ++ called (call (cb cfg) file).
Proof.
  unfold _write, record. cbn [trace]. rewrite !called_app. cbn.
  by rewrite app_nil_r.
Qed.

Lemma _write_pushed cfg st file :
  pushed (trace (_write cfg st file)) = pushed (trace st) ++ [file].
Proof.
  unfold _write, record. cbn [trace]. by rewrite !pushed_app, pushed_call.
Qed.

(** C10.  Lines 36-42 make the options and the callback of a session out of
    the second and third argument of [watch].  When the second argument is a
    function, that function is the per-file callback, whatever the third
    argument is, and the options are the defaults: the events [add],
    [change] and [unlink], [ignoreInitial] true and [readDelay] 10; the
    function is what [write] calls with every file it emits, and what the
    stream's [_write] calls with every file written into it, once each.
    When no callback is given at all the callback is the empty function:
    [write] and [_write] push the file all the same and call nothing.  A
    session [watch] returns, for either kind of declaration, has these
    options and this callback. *)
Theorem watch_callback_and_defaults `{Host} o c cfg :
  (opts cfg, cb cfg) = watch_args o c ->
  (forall f, o = OptsFunction f ->
     cb cfg = UserCallback f
     /\ opts cfg = watch_defaultOptions
     /\ prop (opts cfg) "events" = JArr ["add"; "change"; "unlink"]
     /\ prop (opts cfg) "ignoreInitial" = JBool true
     /\ prop (opts cfg) "readDelay" = JNum 10
     /\ forall s event file,
          called (trace (write cfg s event None file))
          = called (trace s) ++ [(f, tag event file)]
          /\ pushed (trace (write cfg s event None file))
             = pushed (trace s) ++ [tag event file]
          /\ called (trace (_write cfg s file)) = called (trace s) ++ [(f, file)]
          /\ pushed (trace (_write cfg s file)) = pushed (trace s) ++ [file])
  /\ ((forall f, o <> OptsFunction f) -> c = None ->
      cb cfg = NoopCallback
      /\ forall s event file,
           called (trace (write cfg s event None file)) = called (trace s)
           /\ pushed (trace (write cfg s event None file))
              = pushed (trace s) ++ [tag event file]
           /\ called (trace (_write cfg s file)) = called (trace s)
           /\ pushed (trace (_write cfg s file)) = pushed (trace s) ++ [file])
  /\ (forall b g cfg' st,
        watch b g o c = Ok (cfg', st) -> (opts cfg', cb cfg') = (opts cfg, cb cfg)).
Proof.
  intros Hw. split; [|split].
  - intros f ->. unfold watch_args in Hw.
    change (assign ∅ [watch_defaultOptions; ∅])
      with (assign ∅ [watch_defaultOptions]) in Hw.
    rewrite assign_copy in Hw. injection Hw as Ho Hc.
    split; [exact Hc|]. split; [exact Ho|]. rewrite Ho.
    do 3 (split; [reflexivity|]). intros s event file.
    rewrite write_called, write_pushed, _write_called, _write_pushed, Hc.
    done.
  - intros Hnf ->. assert (cb cfg = NoopCallback) as Hcb.
    { destruct o as [|m|f]; unfold watch_args in Hw;
        [congruence|congruence|by destruct (Hnf f)]. }
    split; [exact Hcb|]. intros s event file.
    rewrite write_called, write_pushed, _write_called, _write_pushed, Hcb.
    cbn. by rewrite !app_nil_r.
  - intros b g cfg' st Hret. rewrite Hw. by eapply watch_config.
Qed.

(** [watch_callback_and_defaults] for a function in the place of the
    options: a file written into the stream, and a deleted file the engine
    emits, are each handed to it once. *)
Lemma watch_callback_and_defaults_witness :
  (opts callback_cfg, cb callback_cfg) = watch_args (OptsFunction 7) (Some 8)
  /\ cb callback_cfg = UserCallback 7
  /\ called (trace (_write callback_cfg (fresh ["/proj/src/**/*.js"]) file_a))
     = [(7, file_a)]
  /\ called (trace (write callback_cfg (fresh ["/proj/src/**/*.js"]) "unlink"
                      None file_a))
     = [(7, tag "unlink" file_a)].
Proof.
  assert ((opts callback_cfg, cb callback_cfg)
          = watch_args (OptsFunction 7) (Some 8)) as Hargs by reflexivity.
  split; [exact Hargs|].
  destruct (proj1 (watch_callback_and_defaults (OptsFunction 7) (Some 8)
                     callback_cfg Hargs) 7 eq_refl)
    as (Hcb & _ & _ & _ & _ & Hcalls).
  split; [exact Hcb|].
  destruct (Hcalls (fresh ["/proj/src/**/*.js"]) "unlink" file_a)
    as (Hw & _ & Hi & _).
  split; [exact Hi|exact Hw].
Defined.

(** * Sessions *)

(** ** What one step adds *)
Section Steps.
Context `{Host}.

Lemma emitted_app a b : emitted (a ++ b) = emitted a ++ emitted b.
Proof. apply omap_app. Qed.


Lemma handed_app a b : handed (a ++ b) = handed a ++ handed b.
Proof. unfold handed. by rewrite called_app, fmap_app. Qed.

(** The effects of [write] for a file, in order. *)
Lemma write_record cfg st event file :
  write cfg st event None file
  = record st
      ((if truthy (prop (opts cfg) "verbose")
        then [ELog (Saw (prop (opts cfg) "name") file (verb event))] else [])
       ++ EPush (tag event file) :: call (cb cfg) (tag event file)).
Proof.
  unfold write, log, record, verb. destruct (truthy _); cbn [trace globs timers reads].
  - by rewrite <- app_assoc.
  - reflexivity.
Qed.

(** The value the loop leaves in [glob] was read from the pattern array, at
    the index [anymatch] gave for the path or for one of its ancestors. *)
Lemma owner_loop_result b gs : forall fuel p glob,
  owner_loop b fuel gs p = Ok glob ->
  exists n, n < fuel /\ glob = array_get gs (anymatch gs (ancestor n p)).
Proof.
  destruct b.
  { intros [|fuel] p glob; discriminate. }
  induction fuel as [|fuel IH]; intros p glob Hloop; [discriminate|].
  rewrite owner_loop_let_step in Hloop.
  destruct (owned gs p).
  { injection Hloop as <-. exists 0. split; [lia|reflexivity]. }
  destruct (String.eqb p (path_dirname p)).
  { injection Hloop as <-. exists 0. split; [lia|reflexivity]. }
  destruct (IH _ _ Hloop) as (n & Hn & ->).
  exists (S n). split; [lia|]. by rewrite ancestor_dirname.
Qed.

Lemma array_get_elem gs i g : array_get gs i = Some g -> g ∈ gs.
Proof.
  unfold array_get. destruct (i <? 0)%Z; [done|].
  apply list_elem_of_lookup_2.
Qed.

(** What a call of [processEvent] that returns has done: one of three
    things. *)
Lemma processEvent_delta b cfg st event filepath st' :
  processEvent b cfg st event filepath = Ok st' ->
  st' = record st
          [ELog (Unexpected
                   (unexpected cfg (resolveFilepath (opts cfg) filepath) event))]
  \/ (exists g n,
        array_get (globs st)
          (anymatch (globs st)
             (ancestor n (resolveFilepath (opts cfg) filepath))) = Some g
        /\ g <> ""
        /\ ((unlink_event event = true
             /\ st' = write cfg st event None
                        (new_File
                           (<["path" := JStr (resolveFilepath (opts cfg) filepath)]>
                              (if baseForced cfg then opts cfg
                               else <["base" :=
                                        JStr (path_normalize (globParent g))]>
                                      (opts cfg)))))
            \/ (unlink_event event = false
                /\ st' = {| globs := globs st;
                            timers := timers st ++
                              [{| p_event := event;
                                  p_filepath := resolveFilepath (opts cfg) filepath;
                                  p_fileOpts :=
                                    if baseForced cfg then opts cfg
                                    else <["base" :=
                                             JStr (path_normalize (globParent g))]>
                                           (opts cfg) |}];
                            reads := reads st;
                            trace := trace st ++
                              [ESetTimeout (prop (opts cfg) "readDelay")
                                 {| p_event := event;
                                    p_filepath :=
                                      resolveFilepath (opts cfg) filepath;
                                    p_fileOpts :=
                                      if baseForced cfg then opts cfg
                                      else <["base" :=
                                               JStr (path_normalize (globParent g))]>
                                             (opts cfg) |}] |}))).
Proof.
  unfold processEvent. rewrite assign_copy.
  destruct (owner_loop b _ (globs st) _) as [glob| |] eqn:Hloop; [|done|done].
  cbn [mbind result_bind].
  destruct (truthy_elt glob) eqn:Hglob; cbn [negb].
  2:{ intros [= <-]. by left. }
  destruct glob as [g|]; [|discriminate]. cbn [default].
  destruct (owner_loop_result _ _ _ _ _ Hloop) as (n & _ & Hn).
  intros Hst. right. exists g, n. split; [done|]. split.
  { intros ->. discriminate. }
  destruct (unlink_event event); injection Hst as <-; [left|right]; done.
Qed.

End Steps.

(** ** What a session adds *)
Section Sessions.
Context `{Host}.

Lemma quiet_nil cfg : quiet cfg [].
Proof. by split. Qed.

Lemma quiet_app cfg a b : quiet cfg a -> quiet cfg b -> quiet cfg (a ++ b).
Proof.
  intros [Ea Ha] [Eb Hb]. split.
  - by rewrite emitted_app, Ea, Eb.
  - intros k Hk. by rewrite handed_app, pushed_app, (Ha k Hk), (Hb k Hk).
Qed.

Lemma quiet_write cfg event file :
  quiet cfg
    ((if truthy (prop (opts cfg) "verbose")
      then [ELog (Saw (prop (opts cfg) "name") file (verb event))] else [])
     ++ EPush (tag event file) :: call (cb cfg) (tag event file)).
Proof.
  apply quiet_app; [by destruct (truthy _)|].
  split.
  - by destruct (cb cfg).
  - intros k ->. reflexivity.
Qed.

(** [processEvent] leaves the pattern array and the reads in flight alone
    and only adds to the timers and to the trace. *)
Lemma processEvent_appends b cfg st event filepath st' :
  processEvent b cfg st event filepath = Ok st' ->
  globs st' = globs st
  /\ exists es, trace st' = trace st ++ es /\ quiet cfg es.
Proof.
  intros Hp. apply processEvent_delta in Hp
    as [->|(g & n & _ & _ & [[_ ->]|[_ ->]])].
  - split; [done|]. eexists. split; [reflexivity|]. by split.
  - rewrite write_record. split; [done|].
    eexists. split; [reflexivity|]. apply quiet_write.
  - split; [done|]. eexists. split; [reflexivity|]. by split.
Qed.

Lemma run_listeners_appends b cfg event arg evs : forall st st',
  run_listeners b cfg st event arg evs = Ok st' ->
  globs st' = globs st
  /\ exists es, trace st' = trace st ++ es /\ quiet cfg es.
Proof.
  induction evs as [|ev evs IH]; intros st st'; cbn [run_listeners].
  - intros [= <-]. split; [done|]. exists []. split; [by rewrite app_nil_r|].
    apply quiet_nil.
  - destruct (String.eqb ev event); [|apply IH].
    destruct (processEvent b cfg st event arg) as [st1| |] eqn:Hp; [|done|done].
    cbn [mbind result_bind]. intros Hrest.
    destruct (processEvent_appends _ _ _ _ _ _ Hp) as (Hg1 & es1 & Ht1 & Hq1).
    destruct (IH _ _ Hrest) as (Hg2 & es2 & Ht2 & Hq2).
    split; [congruence|]. exists (es1 ++ es2). split.
    + by rewrite Ht2, Ht1, app_assoc.
    + by apply quiet_app.
Qed.

(** A listener for a kind of event that is not listed does not exist. *)
Lemma run_listeners_unlisted b cfg st event arg evs :
  event ∉ evs -> run_listeners b cfg st event arg evs = Ok st.
Proof.
  induction evs as [|ev evs IH]; intros Hnot; [reflexivity|].
  cbn [run_listeners]. apply not_elem_of_cons in Hnot as [Hne Hnot].
  destruct (String.eqb ev event) eqn:E; [|by apply IH].
  apply String.eqb_eq in E. congruence.
Qed.

(** One step of a session: the pattern array is extended at most, and the
    trace by effects that emit the step's own stream events and nothing
    else, and that push what they hand to the callback. *)
Lemma apply_op_appends b cfg st x st' :
  apply_op b cfg st x = Ok st' ->
  globs st `prefix_of` globs st'
  /\ exists es,
       trace st' = trace st ++ es
       /\ emitted es = stream_events [x]
       /\ forall k, cb cfg = UserCallback k -> handed es = pushed es.
Proof.
  destruct x as [event arg|i|i o|f|newGlobs|paths| |name]; cbn [apply_op].
  - unfold watcher_emit.
    destruct (run_listeners b cfg st event arg _) as [st1| |] eqn:Hl;
      [|done|done].
    cbn [mbind result_bind]. intros Hst.
    destruct (run_listeners_appends _ _ _ _ _ _ _ Hl) as (Hg & es & Ht & He & Hh).
    cbn [stream_events mbind list_bind]. rewrite app_nil_r.
    destruct (bool_decide (event ∈ mirrored)).
    + destruct (String.eqb event "error" && negb (heard (trace st1) "error"));
        [done|].
      injection Hst as <-. unfold record. cbn [globs trace].
      split; [by rewrite Hg|]. exists (es ++ [EEmit event (Some arg)]).
      split; [by rewrite Ht, app_assoc|]. split.
      * by rewrite emitted_app, He.
      * intros k Hk. rewrite handed_app, pushed_app, (Hh k Hk). reflexivity.
    + injection Hst as <-. split; [by rewrite Hg|]. exists es. done.
  - intros [= <-]. unfold timeout. destruct (timers st !! i) as [p|]; cbn.
    + split; [done|]. eexists. split; [reflexivity|]. by split.
    + split; [done|]. exists []. by rewrite app_nil_r.
  - intros [= <-]. unfold settle.
    destruct (reads st !! i) as [p|]; cbn [mbind option_bind default from_option id].
    + destruct o as [file|e].
      * rewrite write_record. cbn [record globs trace]. split; [done|].
        eexists. split; [reflexivity|].
        destruct (quiet_write cfg (p_event p) file) as [He Hh]. done.
      * split; [done|]. eexists. split; [reflexivity|]. by split.
    + split; [done|]. exists []. by rewrite app_nil_r.
  - intros [= <-]. split; [done|]. eexists. split; [reflexivity|]. split.
    + rewrite emitted_app. by destruct (cb cfg).
    + intros k ->. reflexivity.
  - unfold add. destruct (normalizeGlobs newGlobs) as [l| |]; [|done|done].
    cbn [mbind result_bind].
    destruct (map_result _ l) as [r| |]; [|done|done].
    cbn [mbind result_bind]. intros [= <-]. cbn [globs trace]. split.
    + by apply prefix_app_r.
    + eexists. split; [reflexivity|]. by split.
  - intros [= <-]. split; [done|]. eexists. split; [reflexivity|]. by split.
  - intros [= <-]. split; [done|]. eexists. split; [reflexivity|]. by split.
  - intros [= <-]. split; [done|]. eexists. split; [reflexivity|]. by split.
Qed.

Lemma run_appends b cfg xs : forall st st',
  run b cfg st xs = Ok st' ->
  globs st `prefix_of` globs st'
  /\ exists es,
       trace st' = trace st ++ es
       /\ emitted es = stream_events xs
       /\ forall k, cb cfg = UserCallback k -> handed es = pushed es.
Proof.
  induction xs as [|x xs IH]; intros st st'; cbn [run].
  - intros [= <-]. split; [done|]. exists []. by rewrite app_nil_r.
  - destruct (apply_op b cfg st x) as [st1| |] eqn:Hx; [|done|done].
    cbn [mbind result_bind]. intros Hrest.
    destruct (apply_op_appends _ _ _ _ _ Hx) as (Hg1 & es1 & Ht1 & He1 & Hh1).
    destruct (IH _ _ Hrest) as (Hg2 & es2 & Ht2 & He2 & Hh2).
    split; [by etrans|]. exists (es1 ++ es2). split; [|split].
    + by rewrite Ht2, Ht1, app_assoc.
    + rewrite emitted_app, He1, He2. unfold stream_events.
      cbn [mbind list_bind]. by rewrite app_nil_r.
    + intros k Hk. by rewrite handed_app, pushed_app, (Hh1 k Hk), (Hh2 k Hk).
Qed.


End Sessions.

(** ** Sessions at [ConstBinding] *)
Section SourceSessions.
Context `{Host}.




Lemma watch_initial b g o c cfg st :
  watch b g o c = Ok (cfg, st) ->
  timers st = [] /\ reads st = [] /\ trace st = [EWatch (globs st)].
Proof.
  unfold watch. destruct (normalizeGlobs g) as [l| |]; [|done|done].
  cbn [mbind result_bind]. destruct (watch_args o c) as [o' c'].
  destruct (map_result _ l) as [r| |]; [|done|done].
  cbn [mbind result_bind]. destruct (forEach_of _); [|done].
  by intros [= _ <-].
Qed.


End SourceSessions.

(** ** Closing the stream (C4) *)



(** ** The base directory (C9) *)
Section Bases.
Context `{Host} (cfg : config).
Hypothesis forced : baseForced cfg = truthy (prop (opts cfg) "base").
















End Bases.



(** * Further properties of the engine *)

(** ** Invariants of a session *)

(** The live pattern array only grows, and only at its end: no step of a
    session, [unwatch] and [close] included, removes a pattern or moves
    one. *)
Theorem patterns_are_never_removed `{Host} b cfg st xs st' :
  run b cfg st xs = Ok st' ->
  globs st `prefix_of` globs st'.
Proof. intros Hrun. by destruct (run_appends _ _ _ _ _ Hrun). Qed.

(** [patterns_are_never_removed] on the sample session. *)
Lemma patterns_are_never_removed_witness :
  exists st',
    run ConstBinding callback_cfg (fresh ["/proj/src/**/*.js"]) sample_steps
    = Ok st'
    /\ ["/proj/src/**/*.js"] `prefix_of` globs st'.
Proof.
  eexists. split; [reflexivity|].
  exact (patterns_are_never_removed ConstBinding callback_cfg
           (fresh ["/proj/src/**/*.js"]) sample_steps _ eq_refl).
Defined.

(** When the caller gave a callback, the files handed to it are the files
    pushed downstream, one call for each push and in the same order, for
    files written into the stream and for files the engine emits alike. *)
Theorem callback_is_handed_every_pushed_file `{Host} b cfg st xs st' k :
  run b cfg st xs = Ok st' ->
  cb cfg = UserCallback k ->
  handed (trace st) = pushed (trace st) ->
  handed (trace st') = pushed (trace st').
Proof.
  intros Hrun Hk Hst.
  destruct (run_appends _ _ _ _ _ Hrun) as (_ & es & -> & _ & Hh).
  by rewrite handed_app, pushed_app, Hst, (Hh k Hk).
Qed.

(** [callback_is_handed_every_pushed_file] on the sample session. *)
Lemma callback_is_handed_every_pushed_file_witness :
  exists st',
    run ConstBinding callback_cfg (fresh ["/proj/src/**/*.js"]) sample_steps
    = Ok st'
    /\ cb callback_cfg = UserCallback 7
    /\ handed (trace (fresh ["/proj/src/**/*.js"]))
       = pushed (trace (fresh ["/proj/src/**/*.js"]))
    /\ handed (trace st') = pushed (trace st').
Proof.
  eexists. split; [reflexivity|]. split; [reflexivity|]. split; [reflexivity|].
  exact (callback_is_handed_every_pushed_file ConstBinding callback_cfg
           (fresh ["/proj/src/**/*.js"]) sample_steps _ 7 eq_refl eq_refl eq_refl).
Defined.

(** The named events a session puts on the stream are the mirror of each
    watcher event of the eight kinds of line 80, with the watcher's
    argument, and [end] for each [close], in the order of the steps, and
    nothing else: no read that fails and no path without owner puts an
    [error] there.  A watcher [error] is mirrored when the application
    listens to the stream for it; when nobody does, [emit] throws it, out of
    the watcher's listener. *)
Theorem stream_emits_mirror_and_end `{Host} b cfg st xs st' :
  run b cfg st xs = Ok st' ->
  emitted (trace st') = emitted (trace st) ++ stream_events xs
  /\ forall s arg,
       "error" ∉ opt_events (opts cfg) ->
       watcher_emit b cfg s "error" arg
       = if heard (trace s) "error"
         then Ok (record s [EEmit "error" (Some arg)])
         else Throw (Uncaught arg).
Proof.
  intros Hrun. split.
  - destruct (run_appends _ _ _ _ _ Hrun) as (_ & es & -> & He & _).
    by rewrite emitted_app, He.
  - intros s arg Hnot. unfold watcher_emit.
    rewrite run_listeners_unlisted by done. cbn [mbind result_bind].
    rewrite bool_decide_eq_true_2 by (unfold mirrored; set_solver).
    by destruct (heard (trace s) "error").
Qed.

(** [stream_emits_mirror_and_end] on a session whose application listens
    for [error]: the watcher fails, a directory appears, the stream is
    closed. *)
Lemma stream_emits_mirror_and_end_witness :
  exists st',
    run ConstBinding callback_cfg (fresh ["/proj/src/**/*.js"])
      [Listen "error"; Raw "error" "EACCES"; Raw "addDir" "src/lib"; Close]
    = Ok st'
    /\ emitted (trace st')
       = [("error", Some "EACCES"); ("addDir", Some "src/lib"); ("end", None)].
Proof.
  eexists. split; [reflexivity|].
  exact (proj1 (stream_emits_mirror_and_end ConstBinding callback_cfg
                  (fresh ["/proj/src/**/*.js"])
                  [Listen "error"; Raw "error" "EACCES"; Raw "addDir" "src/lib";
                   Close] _ eq_refl)).
Defined.

(** ** Resolving patterns *)

(** For either kind of declaration, a pattern list without negated patterns
    is resolved pattern by pattern: the result has the patterns of the
    list, in the same order and number, each resolved by [resolveFilepath]
    against the options and passed through normalize-path.  [add] with such
    an argument hands the resolved patterns to the watcher and appends them
    to the live pattern array, behind the patterns already there, and
    changes nothing else. *)
Theorem plain_patterns_resolve_in_order `{Host} b cfg st g l :
  normalizeGlobs g = Ok l ->
  plain l = true ->
  map_result (resolveGlob b (opts cfg)) l = Ok (resolved (opts cfg) l)
  /\ length (resolved (opts cfg) l) = length l
  /\ (forall i p, l !! i = Some p ->
        resolved (opts cfg) l !! i
        = Some (normalize_path (resolveFilepath (opts cfg) p)))
  /\ add b cfg st g
     = Ok {| globs := globs st ++ resolved (opts cfg) l; timers := timers st;
             reads := reads st;
             trace := trace st ++ [EWatcherAdd (resolved (opts cfg) l)] |}
  /\ (forall i q, globs st !! i = Some q ->
        (globs st ++ resolved (opts cfg) l) !! i = Some q).
Proof.
  intros Hl Hplain.
  pose proof (map_result_plain b (opts cfg) l Hplain) as Hr.
  split; [exact Hr|]. split; [|split; [|split]].
  - unfold resolved. by rewrite length_map.
  - intros i p Hi. unfold resolved. by rewrite list_lookup_fmap, Hi.
  - unfold add. rewrite Hl. cbn [mbind result_bind]. by rewrite Hr.
  - intros i q Hi. by apply lookup_app_l_Some.
Qed.

(** [plain_patterns_resolve_in_order] for a relative and an absolute
    pattern added to a session. *)
Lemma plain_patterns_resolve_in_order_witness :
  normalizeGlobs (JArr ["tests/*.spec.js"; "/abs//lib/"])
  = Ok ["tests/*.spec.js"; "/abs//lib/"]
  /\ plain ["tests/*.spec.js"; "/abs//lib/"] = true
  /\ add ConstBinding (default_cfg (JStr "src/**/*.js"))
       (fresh ["/proj/src/**/*.js"]) (JArr ["tests/*.spec.js"; "/abs//lib/"])
     = Ok {| globs := ["/proj/src/**/*.js"; "/proj/tests/*.spec.js"; "/abs/lib"];
             timers := []; reads := [];
             trace := [EWatch ["/proj/src/**/*.js"];
                       EWatcherAdd ["/proj/tests/*.spec.js"; "/abs/lib"]] |}.
Proof.
  split; [reflexivity|]. split; [reflexivity|].
  exact (proj1 (proj2 (proj2 (proj2
           (plain_patterns_resolve_in_order ConstBinding
              (default_cfg (JStr "src/**/*.js")) (fresh ["/proj/src/**/*.js"])
              (JArr ["tests/*.spec.js"; "/abs//lib/"])
              ["tests/*.spec.js"; "/abs//lib/"] eq_refl eq_refl))))).
Defined.

(** ** The options *)

Lemma watch_returns `{Host} b g o c cfg st :
  watch b g o c = Ok (cfg, st) ->
  baseForced cfg = truthy (prop (opts cfg) "base")
  /\ exists evs, forEach_of (prop (opts cfg) "events") = Some evs.
Proof.
  unfold watch. destruct (normalizeGlobs g) as [l| |]; [|done|done].
  cbn [mbind result_bind]. destruct (watch_args o c) as [o' c'].
  destruct (map_result _ l) as [r| |]; [|done|done].
  cbn [mbind result_bind]. destruct (forEach_of _) as [evs|] eqn:Hev; [|done].
  intros [= <- _]. cbn [opts baseForced]. eauto.
Qed.

(** The options lines 36-41 make of an options object are the caller's over
    the defaults: a key the caller gave has the caller's value, also when
    that value is [undefined], and any other key has the value of
    [watch._defaultOptions]; since the defaults have no [base], the merged
    [base] is truthy exactly when the caller's is; without an options
    object the options are the defaults.  A session [watch] returns, for
    either kind of declaration, has these options, has the base forced
    exactly when the caller's [base] is truthy (line 63), and has an
    [events] option with a [forEach] to call (line 76). *)
Theorem options_are_merged_over_defaults `{Host} (m : gmap string jsval)
  (c : option nat) :
  (forall k, prop (watch_args (OptsObject m) c).1 k
             = match m !! k with
               | Some v => v
               | None => prop watch_defaultOptions k
               end)
  /\ truthy (prop (watch_args (OptsObject m) c).1 "base") = truthy (prop m "base")
  /\ (watch_args OptsUndefined c).1 = watch_defaultOptions
  /\ (forall b g cfg st,
        watch b g (OptsObject m) c = Ok (cfg, st) ->
        opts cfg = (watch_args (OptsObject m) c).1
        /\ baseForced cfg = truthy (prop m "base")
        /\ exists evs, forEach_of (prop (opts cfg) "events") = Some evs).
Proof.
  assert ((watch_args (OptsObject m) c).1 = m ∪ watch_defaultOptions) as Ho.
  { unfold watch_args, assign. cbn. by rewrite (right_id_L ∅ (∪)). }
  assert (forall k, prop (watch_args (OptsObject m) c).1 k
                    = match m !! k with
                      | Some v => v
                      | None => prop watch_defaultOptions k
                      end) as Hmerge.
  { intros k. rewrite Ho. unfold prop. destruct (m !! k) as [v|] eqn:Hk.
    - by rewrite (lookup_union_Some_l _ _ _ _ Hk).
    - by rewrite lookup_union_r. }
  assert (truthy (prop (watch_args (OptsObject m) c).1 "base")
          = truthy (prop m "base")) as Hbase.
  { rewrite Hmerge. unfold prop. by destruct (m !! "base"). }
  split; [exact Hmerge|]. split; [exact Hbase|]. split.
  - unfold watch_args. cbn [fst]. apply assign_copy.
  - intros b g cfg st Hw.
    destruct (watch_returns _ _ _ _ _ _ Hw) as [Hforced Hev].
    apply watch_config in Hw.
    assert (opts cfg = (watch_args (OptsObject m) c).1) as Hopts.
    { by rewrite <- Hw. }
    split; [exact Hopts|]. split; [|exact Hev]. by rewrite Hforced, Hopts.
Qed.

(** ** The pattern argument *)

(** [normalizeGlobs] accepts a non-empty string, which becomes a list of one
    pattern, and a list, which it returns as it is, whatever its length and
    its elements; nothing else.  Normalizing what it returned changes
    nothing. *)
Theorem normalizeGlobs_accepts (g : jsval) (l : list string) :
  (normalizeGlobs g = Ok l <->
     (exists s, s <> "" /\ g = JStr s /\ l = [s]) \/ g = JArr l)
  /\ (normalizeGlobs g = Ok l -> normalizeGlobs (JArr l) = Ok l).
Proof.
  split; [split|].
  - unfold normalizeGlobs. destruct g; cbn; try done.
    + destruct b; done.
    + destruct (n =? 0)%Z; done.
    + destruct (String.eqb s "") eqn:E; cbn; [done|].
      intros [= <-]. left. exists s. by apply String.eqb_neq in E.
    + intros [= <-]. by right.
  - intros [(s & Hs & -> & ->)| ->]; [|reflexivity].
    unfold normalizeGlobs. cbn. apply String.eqb_neq in Hs. by rewrite Hs.
  - reflexivity.
Qed.

(** ** The reporter *)

Lemma append_assoc (a b c : string) : (a +:+ b) +:+ c = a +:+ (b +:+ c).
Proof.
  induction a as [|x a IH]; [reflexivity|].
  change (String x ((a +:+ b) +:+ c) = String x (a +:+ b +:+ c)).
  by rewrite IH.
Qed.

Lemma ends_with_e_stem s :
  ends_with_e s = true -> exists stem, s = stem +:+ "e".
Proof.
  induction s as [|c s IH]; [discriminate|].
  destruct s as [|c' s'].
  - cbn. intros Hc. apply Ascii.eqb_eq in Hc as ->. by exists "".
  - intros He. destruct (IH He) as [stem Hs]. exists (String c stem).
    change (String c (String c' s') = String c (stem +:+ "e")).
    by rewrite <- Hs.
Qed.

(** The verb the reporter prints for an event is the event name made to end
    in "ed": a "d" is appended to a name that ends in "e", "ed" to any
    other, the empty name included.  The entry is logged with the [name]
    option and the file, and the reporter changes nothing else. *)
Theorem log_verb_ends_in_ed cfg st event file :
  (exists stem, verb event = stem +:+ "ed"
     /\ (event = stem +:+ "e" \/ (event = stem /\ ends_with_e event = false)))
  /\ log cfg st event file
     = record st [ELog (Saw (prop (opts cfg) "name") file (verb event))].
Proof.
  split; [|reflexivity]. unfold verb.
  destruct (ends_with_e event) eqn:He.
  - destruct (ends_with_e_stem _ He) as [stem ->]. exists stem.
    split; [by rewrite append_assoc|by left].
  - exists event. split; [done|by right].
Qed.

(** ** Resolved paths *)

Lemma posix_resolve_absolute from to :
  posix_isAbsolute (posix_resolve "/proj" from to) = true.
Proof.
  unfold posix_resolve. destruct (posix_isAbsolute to) eqn:Hto.
  - destruct to as [|c p]; [discriminate|]. cbn in Hto.
    cbn [chars String.list_ascii_of_string]. by apply normalize_chars_absolute.
  - destruct (posix_isAbsolute from) eqn:Hfrom.
    + destruct from as [|c p]; [discriminate|]. cbn in Hfrom.
      cbn [String.append chars String.list_ascii_of_string].
      by apply normalize_chars_absolute.
    + cbn [String.append chars String.list_ascii_of_string].
      by apply normalize_chars_absolute.
Qed.

Lemma posix_normalize_absolute p :
  posix_isAbsolute p = true -> posix_isAbsolute (posix_normalize p) = true.
Proof.
  destruct p as [|c p]; [discriminate|]. cbn. intros Hc.
  unfold posix_normalize. cbn [chars String.list_ascii_of_string].
  by apply normalize_chars_absolute.
Qed.

(** On a host whose [path.resolve] returns absolute paths and whose
    [path.normalize] keeps an absolute path absolute, [resolveFilepath]
    returns an absolute path for every path it is given; an absolute path is
    resolved without regard to the [cwd] option; and resolving a resolved
    path only normalizes it again. *)
Theorem resolveFilepath_is_absolute `{Host} o filepath :
  (forall from to, pathIsAbsolute (path_resolve from to) = true) ->
  (forall p, pathIsAbsolute p = true -> pathIsAbsolute (path_normalize p) = true) ->
  pathIsAbsolute (resolveFilepath o filepath) = true
  /\ (pathIsAbsolute filepath = true ->
      forall o', resolveFilepath o' filepath = resolveFilepath o filepath)
  /\ resolveFilepath o (resolveFilepath o filepath)
     = path_normalize (resolveFilepath o filepath).
Proof.
  intros Hres Hnorm.
  assert (pathIsAbsolute (resolveFilepath o filepath) = true) as Habs.
  { unfold resolveFilepath. destruct (pathIsAbsolute filepath) eqn:E.
    - by apply Hnorm.
    - apply Hres. }
  split; [exact Habs|]. split.
  - intros Hf o'. unfold resolveFilepath. by rewrite Hf.
  - unfold resolveFilepath at 1. by rewrite Habs.
Qed.

(** [resolveFilepath_is_absolute] on the POSIX host. *)
Lemma resolveFilepath_is_absolute_witness :
  (forall from to, pathIsAbsolute (path_resolve from to) = true)
  /\ (forall p, pathIsAbsolute p = true -> pathIsAbsolute (path_normalize p) = true)
  /\ pathIsAbsolute (resolveFilepath {["cwd" := JStr "sub"]} "lib/../a.js") = true
  /\ resolveFilepath {["cwd" := JStr "sub"]} "lib/../a.js" = "/proj/sub/a.js".
Proof.
  split; [exact posix_resolve_absolute|].
  split; [exact posix_normalize_absolute|].
  split; [|reflexivity].
  exact (proj1 (resolveFilepath_is_absolute {["cwd" := JStr "sub"]} "lib/../a.js"
                  posix_resolve_absolute posix_normalize_absolute)).
Defined.

